(** * Event-news matching pipeline (pipeline/matching.py)

    A shallow embedding of the query builder, the time-window calculator,
    the relevance scorer and the matching orchestrator, followed by the
    properties proved about them.

    Modelling conventions.
    - A Python [str] is a [list ascii]; the development covers ASCII text:
      on text whose characters have a code below 128 ([ascii_text]),
      [str.lower], [\w], [\s] and [str.split] are the functions below.
      On other text [str.lower] is not a function of the single
      characters (a final sigma depends on what follows it); a statement
      that relies on [lower] going character by character carries
      [ascii_text] as a hypothesis.
    - [re.findall] is a small backtracking matcher run on the pattern of
      the source; the proofs read the pattern through direct functions
      that are shown to agree with the matcher.
    - A naive [datetime] is the integer number of microseconds of its
      wall-clock reading, counted from 1970-01-01T00:00:00;
      [timedelta(days=n)] is [n * day_us].  The finite ranges of
      [timedelta] and [datetime] are modelled where a date of the event or
      a day count of the caller is involved: [timedelta(days=n)] and the
      subtraction of a [timedelta] from a [datetime] raise
      [OverflowError] as they do in CPython.  A reading of the clock is a
      date of the present: [now + 1 day] and [now - 30 days] are
      datetimes.
    - The score is a Python float that only ever holds integers (sums of
      1, 2, 3 and 5), so it is kept as a [Z]; [min_score] is any rational.
    - [datetime.now()] is a parameter: one reading for the time window and
      one reading per scored article that has a publication date.
    - The News Client is a parameter: a function that returns the fetched
      articles or what it raised.

    The search of the market client (polymarket/client.py), the summary
    without the model (ai/summarizer.py) and the handler of the news route
    (api/routes.py) follow the orchestrator; the requests they send (the
    market API, the model) are parameters in the same way. *)

From Stdlib Require Import Ascii String DecimalString.
From Stdlib Require Import List Bool Arith ZArith QArith Lia.
From Stdlib Require Import Sorted Permutation.
Import ListNotations.
Close Scope Q_scope.

(** ** Python strings *)

Module Py.

Definition str := list ascii.

Definition lit (s : string) : str := list_ascii_of_string s.

Definition code (c : ascii) : nat := nat_of_ascii c.

Definition in_range (lo hi : nat) (c : ascii) : bool :=
  (lo <=? code c) && (code c <=? hi).

Definition is_upper (c : ascii) : bool := in_range 65 90 c.
Definition is_lower (c : ascii) : bool := in_range 97 122 c.
Definition is_digit (c : ascii) : bool := in_range 48 57 c.

(** The characters of ASCII text. *)
Definition is_ascii (c : ascii) : bool := code c <? 128.

Definition ascii_text (s : str) : bool := forallb is_ascii s.

(** [\w] on ASCII: letters, digits and the underscore. *)
Definition is_word (c : ascii) : bool :=
  is_upper c || is_lower c || is_digit c || (code c =? 95).

(** [\s] and [str.isspace] on ASCII: TAB LF VT FF CR, FS GS RS US, SPACE. *)
Definition is_space (c : ascii) : bool :=
  in_range 9 13 c || in_range 28 32 c.

Definition lower_char (c : ascii) : ascii :=
  if is_upper c then ascii_of_nat (code c + 32) else c.

(** [s.lower()] on ASCII text, where it goes character by character. *)
Definition lower (s : str) : str := map lower_char s.

Definition space : ascii := ascii_of_nat 32.
Definition dquote : ascii := ascii_of_nat 34.

Fixpoint str_eqb (a b : str) : bool :=
  match a, b with
  | [], [] => true
  | x :: a', y :: b' => Ascii.eqb x y && str_eqb a' b'
  | _, _ => false
  end.

(** [x in l] for a list or a set of strings *)
Definition mem (x : str) (l : list str) : bool := existsb (str_eqb x) l.

Fixpoint is_prefix (p s : str) : bool :=
  match p, s with
  | [], _ => true
  | x :: p', y :: s' => Ascii.eqb x y && is_prefix p' s'
  | _ :: _, [] => false
  end.

(** [needle in hay] for two strings *)
Fixpoint contains (hay needle : str) : bool :=
  is_prefix needle hay ||
  match hay with
  | [] => false
  | _ :: hay' => contains hay' needle
  end.

Fixpoint drop_while (p : ascii -> bool) (s : str) : str :=
  match s with
  | [] => []
  | c :: s' => if p c then drop_while p s' else s
  end.

(** [s.strip(c)] for a one-character argument *)
Definition strip (c : ascii) (s : str) : str :=
  rev (drop_while (Ascii.eqb c) (rev (drop_while (Ascii.eqb c) s))).

(** [s.split()]: the maximal runs of characters that are not white space.
    [cur] is the word being read. *)
Fixpoint split_from (cur : str) (s : str) : list str :=
  match s with
  | [] => match cur with [] => [] | _ => [cur] end
  | c :: s' =>
      if is_space c
      then match cur with
           | [] => split_from [] s'
           | _ => cur :: split_from [] s'
           end
      else split_from (cur ++ [c]) s'
  end.

Definition split (s : str) : list str := split_from [] s.

(** [' '.join(l)] *)
Fixpoint join (l : list str) : str :=
  match l with
  | [] => []
  | [x] => x
  | x :: l' => x ++ space :: join l'
  end.

(** [l[:n]]: a negative [n] counts from the end. *)
Definition slice_to {A} (n : Z) (l : list A) : list A :=
  if (0 <=? n)%Z then firstn (Z.to_nat n) l
  else firstn (length l - Z.to_nat (- n)) l.

(** [str(n)] / [f"{n}"] for a non-negative int *)
Definition str_of_nat (n : nat) : str :=
  lit (NilEmpty.string_of_uint (Nat.to_uint n)).

(** [str(n)] / [f"{n}"] / ["%d" % n] for an int *)
Definition str_of_Z (n : Z) : str :=
  if (n <? 0)%Z then lit "-" ++ str_of_nat (Z.to_nat (- n))
  else str_of_nat (Z.to_nat n).

End Py.

Import Py.

(** ** Regular expressions of the module *)

(** [re.sub(r'[^\w\s]', ' ', text)] *)
Definition sub_non_word_space (text : str) : str :=
  map (fun c => if is_word c || is_space c then c else space) text.

(** A backtracking matcher for the constructs the patterns of the module
    use: a character class, [\b], concatenation and the greedy star.  A
    match is tried against [s], the character before it being [prev]; the
    continuation [k] is the rest of the pattern and returns what is left
    of the text after the whole match.  Alternatives are tried in the
    order of [re]: one more iteration of a star before leaving it. *)
Module Regex.

Definition is_word_at (o : option ascii) : bool :=
  match o with Some c => is_word c | None => false end.

(** [\b] between the character [before] and the character [after] (either
    may be missing at an end of the text). *)
Definition word_boundary (before after : option ascii) : bool :=
  xorb (is_word_at before) (is_word_at after).

(** The character before the text that follows [pre], when [prev] is the
    character before [pre]. *)
Definition before (prev : option ascii) (pre : str) : option ascii :=
  fold_left (fun _ c => Some c) pre prev.

(** The patterns. *)
Inductive regex :=
  | Class (p : ascii -> bool)
  | WordB
  | Cat (a b : regex)
  | Star (a : regex).

(** [a+] *)
Definition Plus (a : regex) : regex := Cat a (Star a).

(** What is left of the text after the match, if the rest of the
    pattern matches. *)
Definition cont := option ascii -> str -> option str.

(** [a*] followed by [k]: at most [n] iterations, each of which must
    consume a character. *)
Definition star_loop (step : option ascii -> str -> cont -> option str)
  (k : cont) : nat -> option ascii -> str -> option str :=
  fix loop (n : nat) (prev : option ascii) (s : str) : option str :=
    match n with
    | O => k prev s
    | S n' =>
        match step prev s
                (fun prev' s' =>
                   if length s' <? length s then loop n' prev' s' else None)
        with
        | Some rest => Some rest
        | None => k prev s
        end
    end.

(** One attempt of [r] followed by [k].  A star is given as many
    iterations as the text has characters. *)
Fixpoint run (r : regex) (prev : option ascii) (s : str) (k : cont)
  {struct r} : option str :=
  match r with
  | Class p =>
      match s with
      | c :: s' => if p c then k (Some c) s' else None
      | [] => None
      end
  | WordB => if word_boundary prev (hd_error s) then k prev s else None
  | Cat a b => run a prev s (fun prev' s' => run b prev' s' k)
  | Star a => star_loop (run a) k (length s) prev s
  end.

(** The end of the pattern. *)
Definition accept : cont := fun _ rest => Some rest.

(** The scan of [re.findall]: the text of a match is recorded and the scan
    resumes after it (one character on after an empty match); without a
    match it moves one character on. *)
Fixpoint scan (r : regex) (fuel : nat) (prev : option ascii) (s : str)
  : list str :=
  match fuel with
  | O => []
  | S fuel' =>
      match run r prev s accept with
      | Some rest =>
          match firstn (length s - length rest) s, s with
          | [], [] => [[]]
          | [], c :: s' => [] :: scan r fuel' (Some c) s'
          | m, _ => m :: scan r fuel' (before prev m) rest
          end
      | None =>
          match s with
          | [] => []
          | c :: s' => scan r fuel' (Some c) s'
          end
      end
  end.

Definition findall (r : regex) (text : str) : list str :=
  scan r (S (length text)) None text.

End Regex.

(** [[A-Z][a-z]+] *)
Definition cap_word_re : Regex.regex :=
  Regex.Cat (Regex.Class is_upper) (Regex.Plus (Regex.Class is_lower)).

(** [\s+[A-Z][a-z]+] *)
Definition group_re : Regex.regex :=
  Regex.Cat (Regex.Plus (Regex.Class is_space)) cap_word_re.

(** [\b[A-Z][a-z]+(?:\s+[A-Z][a-z]+)*\b], the pattern of
    [build_news_query] and of [score_article]. *)
Definition entity_pattern : Regex.regex :=
  Regex.Cat Regex.WordB
    (Regex.Cat cap_word_re
       (Regex.Cat (Regex.Star group_re) Regex.WordB)).

(** [re.findall(entity_pattern, text)] *)
Definition named_entities (text : str) : list str :=
  Regex.findall entity_pattern text.

(** ** Constants *)

Definition STOP_WORDS : list str := map lit
  [ "the"; "a"; "an"; "in"; "on"; "at"; "to"; "for"; "of"; "and"; "or"; "is";
    "are"; "was"; "were"; "be"; "been"; "being"; "will"; "would"; "could";
    "should"; "may"; "might"; "can"; "this"; "that"; "these"; "those"; "it";
    "its"; "by"; "from"; "with"; "as"; "but"; "if"; "then"; "than"; "so";
    "what"; "which"; "who"; "whom"; "when"; "where"; "why"; "how"; "all";
    "each"; "every"; "both"; "few"; "more"; "most"; "other"; "some"; "such";
    "no"; "not"; "only"; "own"; "same"; "too"; "very"; "just"; "before";
    "after"; "during"; "while"; "market"; "resolve"; "yes"; "no" ]%string.

Definition GENERIC_TAGS : list str := map lit
  [ "business"; "politics"; "news"; "world"; "us"; "usa"; "america";
    "global"; "international"; "economy"; "economic"; "predictions";
    "2024"; "2025"; "2026" ]%string.

(** ** Outcomes *)

(** What a call can raise: [except Exception] catches the first kind
    only. *)
Inductive raised :=
  | PyException (msg : str)
  | PyBaseException (msg : str).

Inductive outcome (A : Type) :=
  | Return (a : A)
  | Raise (e : raised).
Arguments Return {A} a.
Arguments Raise {A} e.

(** A statement that may raise, followed by the rest of the block. *)
Definition bind {A B} (x : outcome A) (k : A -> outcome B) : outcome B :=
  match x with
  | Return a => k a
  | Raise e => Raise e
  end.

Notation "x <- e ;; k" := (bind e (fun x => k))
  (at level 61, e at next level, right associativity).

(** ** Data model *)

(** A [datetime]: its wall-clock reading in microseconds from
    1970-01-01T00:00:00, and the UTC offset when it is timezone-aware. *)
Record datetime := {
  wall : Z;
  tzinfo : option Z
}.

(** [dt.replace(tzinfo=None)] when aware, [dt] otherwise: the naive
    reading. *)
Definition to_naive (dt : datetime) : Z := wall dt.

Definition day_us : Z := 86400000000.

(** The duration of [n] days. *)
Definition days (n : Z) : Z := (n * day_us)%Z.

(** [datetime.min], 0001-01-01T00:00:00, and [datetime.max],
    9999-12-31T23:59:59.999999. *)
Definition datetime_min : Z := days (-719162).
Definition datetime_max : Z := (days 2932897 - 1)%Z.

Definition is_datetime (t : Z) : bool :=
  (datetime_min <=? t)%Z && (t <=? datetime_max)%Z.

(** [timedelta(days=n)]: at most 999999999 days either way; the text of
    the [OverflowError] is that of CPython, which reads [n] as a C int
    first. *)
Definition timedelta (n : Z) : outcome Z :=
  if (Z.abs n <=? 999999999)%Z then Return (days n)
  else if (-2147483648 <=? n)%Z && (n <=? 2147483647)%Z
  then Raise (PyException (lit "days=" ++ str_of_Z n
                           ++ lit "; must have magnitude <= 999999999"))
  else Raise (PyException (lit "Python int too large to convert to C int")).

(** [dt - td] for a [datetime] and a [timedelta]: [OverflowError] when
    the result is not a [datetime]. *)
Definition datetime_sub (dt td : Z) : outcome Z :=
  if is_datetime (dt - td) then Return (dt - td)%Z
  else Raise (PyException (lit "date value out of range")).

(** [td.days]: a timedelta is normalised with [0 <= seconds < 86400], so
    its [days] field is the floor of the quotient. *)
Definition td_days (td : Z) : Z := (td / day_us)%Z.

(** The fields of [polymarket.client.Event] read by the pipeline. *)
Record Event := {
  ev_title : str;
  ev_description : str;
  ev_start_date : option datetime;
  ev_end_date : option datetime;
  ev_tags : list str
}.

(** The fields of [newsapi.client.Article] read by the pipeline and by
    the routes.  [from_api_response] fills the strings with what the
    response holds, [None] for a JSON null: the scorer guards three of
    them with [or ''], the routes pass them on. *)
Record Article := {
  source_name : option str;
  title : option str;
  description : option str;
  url : option str;
  image_url : option str;
  published_at : option datetime
}.

Record ScoredArticle := {
  article : Article;
  score : Z;
  match_reasons : list str
}.

(** ** Term extractor and query builder *)

Definition extract_key_terms (text : str) : list str :=
  let text := lower text in
  let text := sub_non_word_space text in
  let words := split text in
  filter (fun w => negb (mem w STOP_WORDS) && (2 <? length w)) words.

(** The loop over [event.tags], with its [break]. *)
Fixpoint tag_loop (max_terms : Z) (terms : list str) (tags : list str)
  : list str :=
  match tags with
  | [] => terms
  | tag :: tags' =>
      let tag_lower := lower tag in
      if negb (mem tag_lower GENERIC_TAGS)
         && negb (mem tag_lower (map lower terms))
      then
        let terms := terms ++ [tag] in
        if (max_terms <=? Z.of_nat (length terms))%Z then terms
        else tag_loop max_terms terms tags'
      else tag_loop max_terms terms tags'
  end.

(** The entity between two quote markers. *)
Definition quoted (entity : str) : str := dquote :: entity ++ [dquote].

(** The loop over the named entities, with its [break]. *)
Fixpoint entity_loop (max_terms : Z) (terms : list str) (entities : list str)
  : list str :=
  match entities with
  | [] => terms
  | entity :: entities' =>
      if negb (mem (lower entity) STOP_WORDS) && negb (mem entity terms)
      then
        let terms := quoted entity :: terms in
        if (max_terms <=? Z.of_nat (length terms))%Z then terms
        else entity_loop max_terms terms entities'
      else entity_loop max_terms terms entities'
  end.

(** The term list of [build_news_query] before the final slice. *)
Definition query_terms_of (event : Event) (max_terms : Z) : list str :=
  let title_terms := extract_key_terms (ev_title event) in
  let terms := firstn 5 title_terms in
  let terms := tag_loop max_terms terms (ev_tags event) in
  let named_entities := named_entities (ev_title event) in
  entity_loop max_terms terms named_entities.

Definition build_news_query (event : Event) (max_terms : Z) : str :=
  join (slice_to max_terms (query_terms_of event max_terms)).

(** ** Time window calculator *)

(** End date: the end date of the event if in the future, else [now].
    [now] is the reading of [datetime.now()] taken on entry, a date of
    the present: [now + 1 day] here and [now - 30 days] below are
    datetimes. *)
Definition to_date_of (now : Z) (event : Event) : Z :=
  match ev_end_date event with
  | Some end_date =>
      let end_naive := to_naive end_date in
      if (now <? end_naive)%Z
      then Z.min end_naive (now + days 1)
      else now
  | None => now
  end.

(** Start date: the start date of the event with the buffer, or the
    default.  The two subtractions of a day count that is given by the
    caller raise [OverflowError] when the count is too large for a
    [timedelta] or the result is not a [datetime]; the first one comes
    before the comparison with [min_date]. *)
Definition from_date_of (now : Z) (event : Event)
  (default_days_back buffer_days : Z) : outcome Z :=
  match ev_start_date event with
  | Some start_date =>
      let start_naive := to_naive start_date in
      buffer <- timedelta buffer_days ;;
      from_date <- datetime_sub start_naive buffer ;;
      let min_date := (now - days 30)%Z in
      Return (Z.max from_date min_date)
  | None =>
      back <- timedelta default_days_back ;;
      datetime_sub now back
  end.

Definition get_time_window (now : Z) (event : Event)
  (default_days_back buffer_days : Z) : outcome (Z * Z) :=
  let to_date := to_date_of now event in
  from_date <- from_date_of now event default_days_back buffer_days ;;
  Return (from_date, to_date).

(** ** Relevance scorer *)

(** The running [score] and [reasons] of [score_article]. *)
Definition tally := (Z * list str)%type.

(** [score += w; reasons.append(tag)] *)
Definition award (w : Z) (tag : str) (t : tally) : tally :=
  ((fst t + w)%Z, snd t ++ [tag]).

(** The counting loop shared by rules 1 and 2: the number of iterations
    whose cleaned term occurs in [text]. *)
Fixpoint count_matches (text : str) (query_terms : list str) : nat :=
  match query_terms with
  | [] => 0
  | term :: rest =>
      let term_clean := lower (strip dquote term) in
      if contains text term_clean
      then S (count_matches text rest)
      else count_matches text rest
  end.

(** 1. Title matches (weight 3) *)
Definition title_rule (article_title : str) (query_terms : list str)
  (t : tally) : tally :=
  let title_matches := count_matches article_title query_terms in
  if 0 <? title_matches
  then award (Z.of_nat title_matches * 3)
             (lit "title_match:" ++ str_of_nat title_matches) t
  else t.

(** 2. Description matches (weight 1) *)
Definition desc_rule (article_desc : str) (query_terms : list str)
  (t : tally) : tally :=
  let desc_matches := count_matches article_desc query_terms in
  if 0 <? desc_matches
  then award (Z.of_nat desc_matches * 1)
             (lit "desc_match:" ++ str_of_nat desc_matches) t
  else t.

(** 3. Named entity exact match (weight 5) *)
Fixpoint entity_rule (article_title : str) (named_entities : list str)
  (t : tally) : tally :=
  match named_entities with
  | [] => t
  | entity :: rest =>
      if contains article_title (lower entity)
      then entity_rule article_title rest
             (award 5 (lit "entity:" ++ entity) t)
      else entity_rule article_title rest t
  end.

(** 4. Recency bonus (weight 0-2); [now] is the reading of
    [datetime.now()] taken by this call. *)
Definition recency_rule (now : Z) (published : option datetime)
  (t : tally) : tally :=
  match published with
  | Some published_at =>
      let pub_date := to_naive published_at in
      let days_old := td_days (now - pub_date) in
      if (days_old <=? 1)%Z then award 2 (lit "very_recent") t
      else if (days_old <=? 3)%Z then award 1 (lit "recent") t
      else t
  | None => t
  end.

Definition quality_sources : list str := map lit
  [ "reuters"; "bloomberg"; "associated press"; "bbc"; "cnn";
    "wall street journal"; "new york times"; "washington post";
    "financial times"; "the economist"; "politico"; "axios" ]%string.

(** 5. Source quality bonus (weight 1) *)
Definition source_rule (source_lower : str) (t : tally) : tally :=
  if existsb (fun qs => contains source_lower qs) quality_sources
  then award 1 (lit "quality_source") t
  else t.

(** [x or ''] *)
Definition or_empty (x : option str) : str :=
  match x with Some s => s | None => [] end.

Definition score_tally (now : Z) (a : Article) (event : Event)
  (query_terms : list str) : tally :=
  let article_title := lower (or_empty (title a)) in
  let article_desc := lower (or_empty (description a)) in
  let t := (0%Z, []) in
  let t := title_rule article_title query_terms t in
  let t := desc_rule article_desc query_terms t in
  let named_entities := named_entities (ev_title event) in
  let t := entity_rule article_title named_entities t in
  let t := recency_rule now (published_at a) t in
  let source_lower := lower (or_empty (source_name a)) in
  source_rule source_lower t.

Definition score_article (now : Z) (a : Article) (event : Event)
  (query_terms : list str) : ScoredArticle :=
  let t := score_tally now a event query_terms in
  {| article := a; score := fst t; match_reasons := snd t |}.

(** ** Matching orchestrator *)

(** [list.sort(key=lambda x: x.score, reverse=True)].  The built-in sort is
    stable, also under [reverse=True], and the result of a stable sort is
    determined by its input; it is computed here by insertion. *)
Fixpoint insert_desc (x : ScoredArticle) (l : list ScoredArticle)
  : list ScoredArticle :=
  match l with
  | [] => [x]
  | y :: l' =>
      if (score x <? score y)%Z then y :: insert_desc x l'
      else x :: l
  end.

Fixpoint sort_desc (l : list ScoredArticle) : list ScoredArticle :=
  match l with
  | [] => []
  | x :: l' => insert_desc x (sort_desc l')
  end.

(** [s.score >= min_score] *)
Definition clears (min_score : Q) (s : ScoredArticle) : bool :=
  Qle_bool min_score (inject_Z (score s)).

Section Orchestrator.

(** [NewsAPIClient().search_everything(query, from_date, to_date, sort_by,
    page_size)]: the articles and the total count, or what it raised. *)
Variable search_everything :
  str -> Z -> Z -> str -> Z -> outcome (list Article * Z).

(** The successive readings of [datetime.now()] during one call. *)
Variable clock : nat -> Z.

(** [[score_article(a, event, query_terms) for a in articles]], the next
    reading of the clock being number [tick]; [score_article] reads the
    clock only for an article that has a [published_at]. *)
Fixpoint score_all (tick : nat) (articles : list Article) (event : Event)
  (query_terms : list str) : list ScoredArticle :=
  match articles with
  | [] => []
  | a :: rest =>
      let tick' := match published_at a with
                   | Some _ => S tick
                   | None => tick
                   end in
      score_article (clock tick) a event query_terms
        :: score_all tick' rest event query_terms
  end.

(** The call made to the News Client for [event] with the window [w]. *)
Definition search (event : Event) (w : Z * Z)
  : outcome (list Article * Z) :=
  search_everything (build_news_query event 8) (fst w) (snd w)
    (lit "relevancy") 20.

(** What the News Client is asked for [event]: the window is computed
    first, and the call is made when the window was. *)
Definition fetch (event : Event) : outcome (list Article * Z) :=
  w <- get_time_window (clock 0) event 7 2 ;;
  search event w.

(** The scored articles in fetch order, before filtering and sorting. *)
Definition scored_fetch (event : Event) (articles : list Article)
  : list ScoredArticle :=
  score_all 1 articles event (split (build_news_query event 8)).

Definition match_news_to_event (event : Event) (max_articles : Z)
  (min_score : Q) : outcome (list ScoredArticle) :=
  let query := build_news_query event 8 in
  let query_terms := split query in
  w <- get_time_window (clock 0) event 7 2 ;;
  let '(from_date, to_date) := w in
  match search_everything query from_date to_date (lit "relevancy") 20 with
  | Raise (PyException e) => Return []
  | Raise e => Raise e
  | Return (articles, _) =>
      let scored := score_all 1 articles event query_terms in
      let scored := filter (clears min_score) scored in
      let scored := sort_desc scored in
      Return (slice_to max_articles scored)
  end.

End Orchestrator.

(** ** Market client: search (polymarket/client.py) *)

(** The text an event is searched in: title, description and tags,
    separated by spaces, in lower case. *)
Definition searchable (event : Event) : str :=
  lower (ev_title event ++ space :: ev_description event
         ++ space :: join (ev_tags event)).

(** The loop of [search_events] over the fetched events, with its
    [break]. *)
Fixpoint search_loop (query_lower : str) (limit : Z) (matches : list Event)
  (events : list Event) : list Event :=
  match events with
  | [] => matches
  | event :: events' =>
      if contains (searchable event) query_lower
      then
        let matches := matches ++ [event] in
        if (limit <=? Z.of_nat (length matches))%Z then matches
        else search_loop query_lower limit matches events'
      else search_loop query_lower limit matches events'
  end.

Section MarketSearch.

(** [PolymarketClient.get_events(limit, offset, active, closed, order,
    ascending)]: the events, or what the request raised. *)
Variable get_events :
  Z -> Z -> bool -> bool -> str -> bool -> outcome (list Event).

Definition search_events (query : str) (limit : Z) (active : bool)
  : outcome (list Event) :=
  match get_events 100 0 active false (lit "volume") false with
  | Raise e => Raise e
  | Return events => Return (search_loop (lower query) limit [] events)
  end.

End MarketSearch.

(** ** Summarizer (ai/summarizer.py) *)

Record EventSummary := {
  event_title : str;
  summary : str;
  key_points : list str;
  sentiment : str;
  confidence : str;
  sources_used : nat
}.

(** An element of the [articles] argument: an [Article] or a
    [ScoredArticle]. *)
Inductive news_item :=
  | Plain (a : Article)
  | Ranked (s : ScoredArticle).

(** [article.article if hasattr(article, 'article') else article] *)
Definition item_article (i : news_item) : Article :=
  match i with
  | Plain a => a
  | Ranked s => article s
  end.

(** [f"{x}"] for a string that may be [None] *)
Definition format_opt (x : option str) : str :=
  match x with Some s => s | None => lit "None" end.

(** The key point of one article, [title[:80]] after the source between
    brackets; slicing a title that is [None] raises [TypeError]. *)
Definition key_point (a : Article) : outcome str :=
  match title a with
  | None =>
      Raise (PyException (lit "'NoneType' object is not subscriptable"))
  | Some t =>
      Return (lit "[" ++ format_opt (source_name a) ++ lit "] " ++ firstn 80 t)
  end.

(** The loop that collects the key points. *)
Fixpoint collect_key_points (key_points : list str) (items : list news_item)
  : outcome (list str) :=
  match items with
  | [] => Return key_points
  | i :: items' =>
      match key_point (item_article i) with
      | Raise e => Raise e
      | Return k => collect_key_points (key_points ++ [k]) items'
      end
  end.

Definition fallback_summary (event_title : str) (articles : list news_item)
  : outcome EventSummary :=
  match articles with
  | [] =>
      Return {| event_title := event_title;
                summary := lit "No news articles found.";
                key_points := [];
                sentiment := lit "neutral";
                confidence := lit "low";
                sources_used := 0 |}
  | _ =>
      match collect_key_points [] (firstn 3 articles) with
      | Raise e => Raise e
      | Return key_points =>
          Return {| event_title := event_title;
                    summary :=
                      lit "Found " ++ str_of_nat (length articles)
                      ++ lit " relevant news articles. AI summary unavailable (set OPENAI_API_KEY).";
                    key_points := key_points;
                    sentiment := lit "neutral";
                    confidence := lit "low";
                    sources_used := length articles |}
      end
  end.

Section Summarizer.

(** [self.api_key] *)
Variable api_key : str.

(** The body of the [try] of [summarize_event]: the request built from
    the title, the description, the articles and the price, the call of
    the model and the reading of its answer; it returns the summary or
    what one of the three raised. *)
Variable ai_summary :
  str -> str -> list news_item -> option Q -> outcome EventSummary.

Definition summarize_event (event_title event_description : str)
  (articles : list news_item) (market_price : option Q)
  : outcome EventSummary :=
  match api_key with
  | [] => fallback_summary event_title articles
  | _ =>
      match articles with
      | [] =>
          Return {| event_title := event_title;
                    summary :=
                      lit "No relevant news articles found for this event.";
                    key_points := [lit "No recent news coverage"];
                    sentiment := lit "neutral";
                    confidence := lit "low";
                    sources_used := 0 |}
      | _ =>
          match ai_summary event_title event_description articles
                  market_price with
          | Return s => Return s
          | Raise (PyException e) => fallback_summary event_title articles
          | Raise e => Raise e
          end
      end
  end.

End Summarizer.

(** ** The news route (api/routes.py) *)

(** [ArticleResponse] (api/models.py). *)
Record ArticleResponse := {
  r_source_name : str;
  r_title : str;
  r_description : option str;
  r_url : str;
  r_image_url : option str;
  r_published_at : option datetime;
  relevance_score : Z
}.

(** What a route gives: its body, an [HTTPException] with its status code,
    or what went through the handlers. *)
Inductive http (A : Type) :=
  | Ok (body : A)
  | HttpError (status : Z) (detail : str)
  | Uncaught (e : raised).
Arguments Ok {A} body.
Arguments HttpError {A} status detail.
Arguments Uncaught {A} e.

(** [except HTTPException: raise] and [except Exception as e: raise
    HTTPException(500, str(e))] around a computation. *)
Definition handled {A} (body : outcome (http A)) : http A :=
  match body with
  | Return r => r
  | Raise (PyException e) => HttpError 500 e
  | Raise e => Uncaught e
  end.

Section NewsRoute.

(** [PolymarketClient().get_event_by_slug(slug)] *)
Variable get_event_by_slug : str -> outcome (option Event).
Variable search_everything :
  str -> Z -> Z -> str -> Z -> outcome (list Article * Z).
Variable clock : nat -> Z.

(** [str(e)] for the [ValidationError] that the construction of an
    [ArticleResponse] from the fields of a scored article raises; the
    text is that of the validation library. *)
Variable validation_error : ScoredArticle -> str.

(** The construction of an [ArticleResponse]: [source_name], [title] and
    [url] are declared [str], and the validation refuses [None] for
    them. *)
Definition article_response (sa : ScoredArticle) : outcome ArticleResponse :=
  match source_name (article sa), title (article sa), url (article sa) with
  | Some s, Some t, Some u =>
      Return {| r_source_name := s; r_title := t;
                r_description := description (article sa);
                r_url := u;
                r_image_url := image_url (article sa);
                r_published_at := published_at (article sa);
                relevance_score := score sa |}
  | _, _, _ => Raise (PyException (validation_error sa))
  end.

(** [[ArticleResponse(...) for sa in articles]] *)
Fixpoint article_responses (articles : list ScoredArticle)
  : outcome (list ArticleResponse) :=
  match articles with
  | [] => Return []
  | sa :: rest =>
      r <- article_response sa ;;
      rs <- article_responses rest ;;
      Return (r :: rs)
  end.

Definition get_event_news (event_slug : str) (max_articles : Z)
  : http (list ArticleResponse) :=
  handled
    (found <- get_event_by_slug event_slug ;;
     match found with
     | None =>
         Return (HttpError 404
                   (lit "Event '" ++ event_slug ++ lit "' not found"))
     | Some event =>
         articles <- match_news_to_event search_everything clock event
                       max_articles 2 ;;
         body <- article_responses articles ;;
         Return (Ok body)
     end).

End NewsRoute.

(** * Vocabulary of the statements *)

(** ** Order, scores and tallies *)

(** Descending order on scores, as seen on two neighbours. *)
Definition score_ge (a b : ScoredArticle) : Prop := (score b <= score a)%Z.

(** The elements of one score, in their order of appearance. *)
Definition with_score (v : Z) (l : list ScoredArticle) : list ScoredArticle :=
  filter (fun s => (score s =? v)%Z) l.

(** Every rule adds to the running score and appends to the running
    reasons; [join_tally t d] is [t] followed by the contribution [d]. *)
Definition join_tally (t d : tally) : tally :=
  ((fst t + fst d)%Z, snd t ++ snd d).

Definition zero : tally := (0%Z, []).

(** The contribution of rules 1 to 3, which do not read the clock. *)
Definition text_tally (a : Article) (event : Event) (query_terms : list str)
  : tally :=
  let article_title := lower (or_empty (title a)) in
  let article_desc := lower (or_empty (description a)) in
  entity_rule article_title (named_entities (ev_title event))
    (desc_rule article_desc query_terms
       (title_rule article_title query_terms zero)).

Definition source_tally (a : Article) : tally :=
  source_rule (lower (or_empty (source_name a))) zero.

(** The article with its publication date removed. *)
Definition undated (a : Article) : Article :=
  {| source_name := source_name a; title := title a;
     description := description a; url := url a;
     image_url := image_url a; published_at := None |}.

(** A reason tag is told from the others by its first character. *)
Definition starts_with (c : ascii) (s : str) : Prop :=
  exists rest, s = c :: rest.

Definition text_tag (s : str) : Prop :=
  starts_with "t" s \/ starts_with "d" s \/ starts_with "e" s.

(** The two reason tags of the recency rule. *)
Definition very_recent : str := lit "very_recent".

Definition recent : str := lit "recent".

(** Every reason was paid for by at least one point, and no point was
    given without a reason. *)
Definition paid (t : tally) : Prop :=
  (Z.of_nat (length (snd t)) <= fst t)%Z /\ (snd t = [] -> fst t = 0%Z).

(** The cleaned term: quote markers stripped from both ends, lower-cased. *)
Definition term_clean (term : str) : str := lower (strip dquote term).

(** The query terms, in list order and with their repetitions, whose
    cleaned form occurs in [text]. *)
Definition matching_terms (text : str) (query_terms : list str) : list str :=
  filter (fun term => contains text (term_clean term)) query_terms.

Definition title_tag (n : nat) : str := lit "title_match:" ++ str_of_nat n.

(** The contribution of the title rule for [n] matching list entries. *)
Definition title_part (n : nat) : tally :=
  ((3 * Z.of_nat n)%Z, if n =? 0 then [] else [title_tag n]).

(** Removal of repeated strings, the first occurrence being kept. *)
Fixpoint distinct (l : list str) : list str :=
  match l with
  | [] => []
  | x :: l' => if mem x (distinct l') then distinct l' else x :: distinct l'
  end.

(** The number of distinct cleaned terms that occur in [text]. *)
Definition distinct_matches (text : str) (query_terms : list str) : nat :=
  length (distinct (map term_clean (matching_terms text query_terms))).

Definition is_title_tag (r : str) : bool := is_prefix (lit "title_match:") r.

(** ** The entity pattern, piece by piece *)

(** The entity pattern read by hand, piece by piece: the functions the
    engine is shown to compute on it.  They are used in the proofs only;
    the pipeline runs the engine. *)
Module EntityRe.
Import Regex.

(** greedy [p*]: the longest prefix of characters in [p], and the rest *)
Fixpoint span (p : ascii -> bool) (s : str) : str * str :=
  match s with
  | [] => ([], [])
  | c :: s' =>
      if p c then let (a, b) := span p s' in (c :: a, b) else ([], s)
  end.

(** [[A-Z][a-z]+], greedy.  Giving back letters of [[a-z]+] never helps the
    rest of the pattern: the next character would be a lower-case letter,
    which is neither white space nor preceded by a word boundary. *)
Definition cap_word (s : str) : option (str * str) :=
  match s with
  | [] => None
  | c :: s' =>
      if is_upper c
      then match span is_lower s' with
           | ([], _) => None
           | (ls, rest) => Some (c :: ls, rest)
           end
      else None
  end.

(** [\s+[A-Z][a-z]+], greedy.  Giving back characters of [\s+] never helps
    either: the next character would be white space, not [[A-Z]]. *)
Definition ws_cap_word (s : str) : option (str * str) :=
  match span is_space s with
  | ([], _) => None
  | (ws, r) =>
      match cap_word r with
      | Some (w, rest) => Some (ws ++ w, rest)
      | None => None
      end
  end.

(** [(?:\s+[A-Z][a-z]+)*\b] after a character [lastc]: one more iteration
    of the group is tried first; when the remainder of the pattern fails
    after it, the iteration is given back and [\b] is tried here. *)
Fixpoint tail (fuel : nat) (lastc : ascii) (s : str) : option (str * str) :=
  let stop :=
    if word_boundary (Some lastc) (hd_error s) then Some ([], s) else None in
  match fuel with
  | O => stop
  | S fuel' =>
      match ws_cap_word s with
      | Some (g, rest) =>
          match tail fuel' (last g lastc) rest with
          | Some (m, rest') => Some (g ++ m, rest')
          | None => stop
          end
      | None => stop
      end
  end.

(** One attempt of the whole pattern at the head of [s], the character
    before it being [prev]. *)
Definition match_at (prev : option ascii) (s : str) : option (str * str) :=
  if word_boundary prev (hd_error s)
  then match cap_word s with
       | Some (w, r) =>
           match tail (length r) (last w space) r with
           | Some (m, rest) => Some (w ++ m, rest)
           | None => None
           end
       | None => None
       end
  else None.

(** The scan of [re.findall]: a match is recorded and the scan resumes
    after it; otherwise it moves one character on. *)
Fixpoint scan (fuel : nat) (prev : option ascii) (s : str) : list str :=
  match fuel with
  | O => []
  | S fuel' =>
      match s with
      | [] => []
      | c :: s' =>
          match match_at prev s with
          | Some (m, rest) => m :: scan fuel' (Some (last m c)) rest
          | None => scan fuel' (Some c) s'
          end
      end
  end.

Definition findall (text : str) : list str :=
  scan (length text) None text.

End EntityRe.

(** ** Runs of capitalized words *)

Module EntitySpec.
Import Regex EntityRe.

(** [s] does not begin with a character in [p]. *)
Definition stops (p : ascii -> bool) (s : str) : Prop :=
  match s with
  | [] => True
  | c :: _ => p c = false
  end.

(** A capitalized word: one upper-case letter, then one or more lower-case
    letters. *)
Definition capitalized_word (w : str) : Prop :=
  exists c ls, w = c :: ls /\ is_upper c = true /\ ls <> [] /\
               forallb is_lower ls = true.

Definition blank (ws : str) : Prop := ws <> [] /\ forallb is_space ws = true.

(** A run of capitalized words, consecutive words being separated by
    white space only. *)
Inductive cap_run : str -> Prop :=
  | run_one w : capitalized_word w -> cap_run w
  | run_more w ws r :
      capitalized_word w -> blank ws -> cap_run r -> cap_run (w ++ ws ++ r).

(** The words that follow the first one, each with the white space before
    it. *)
Inductive run_tail : str -> Prop :=
  | tail_nil : run_tail []
  | tail_group ws w m :
      blank ws -> capitalized_word w -> run_tail m -> run_tail (ws ++ w ++ m).

(** More of the run could be read at [r]. *)
Definition extendable (r : str) : Prop :=
  exists ws w r', r = ws ++ w ++ r' /\ blank ws /\ capitalized_word w /\
                  stops is_word r'.

(** The text before the run ends with a capitalized word at the start of
    a word, followed by white space: the run could be extended to the
    left. *)
Definition extends_left (prev : option ascii) (pre : str) : Prop :=
  exists pre' w ws,
    pre = pre' ++ w ++ ws /\ is_word_at (before prev pre') = false /\
    capitalized_word w /\ blank ws.

(** [e], standing between [pre] and [post], is a run of capitalized words
    delimited by word boundaries that can be extended on neither side. *)
Definition maximal_run (prev : option ascii) (pre e post : str) : Prop :=
  cap_run e /\
  is_word_at (before prev pre) = false /\ stops is_word post /\
  ~ extends_left prev pre /\ ~ extendable post.

(** The character before is a word character. *)
Definition word_before (prev : option ascii) : Prop := is_word_at prev = true.

(** A continuation that fails on a lower-case letter after a word
    character, as what follows [[a-z]+] in the pattern does. *)
Definition rejects_lower (k : cont) : Prop :=
  forall prev c s, word_before prev -> is_lower c = true ->
                   k prev (c :: s) = None.

(** The closing [\b], then success. *)
Definition closing : cont :=
  fun prev s => if word_boundary prev (hd_error s) then Some s else None.

End EntitySpec.

(** ** Checks of the query builder *)

Module QuerySpec.

(** No upper-case letter occurs in [s]. *)
Definition no_upper (s : str) : Prop :=
  forallb (fun c => negb (is_upper c)) s = true.

(** The check made on an entity, against the term list [terms]. *)
Definition passes (terms : list str) (entity : str) : bool :=
  negb (mem (lower entity) STOP_WORDS) && negb (mem entity terms).

(** The number of insertions the loop makes at most, when it starts from
    [terms]: it stops after the insertion that brings the count to
    [max_terms], and never before its first insertion. *)
Definition room (max_terms : Z) (terms : list str) : nat :=
  Z.to_nat (Z.max 1 (max_terms - Z.of_nat (length terms))).

Definition starts_upper (e : str) : Prop :=
  exists c x, e = c :: x /\ is_upper c = true.

Definition occurrences (x : str) (l : list str) : nat :=
  length (filter (str_eqb x) l).

End QuerySpec.

(** ** Terms, tag lists, rankings, summaries and responses *)

(** A character of a key term: a word character that is not an upper-case
    letter. *)
Definition term_char (c : ascii) : bool := is_word c && negb (is_upper c).

(** A word as [split] returns them: not empty, no white space. *)
Definition is_token (w : str) : Prop :=
  w <> [] /\ forallb (fun c => negb (is_space c)) w = true.

(** [a] is [b] with some of its elements left out, the order being
    kept. *)
Inductive subseq {A : Type} : list A -> list A -> Prop :=
  | subseq_nil : subseq [] []
  | subseq_skip x a b : subseq a b -> subseq a (x :: b)
  | subseq_take x a b : subseq a b -> subseq (x :: a) (x :: b).

Definition desc_tag (n : nat) : str := lit "desc_match:" ++ str_of_nat n.

Definition entity_tag (entity : str) : str := lit "entity:" ++ entity.

(** The entities whose lower-cased form occurs in [text], in order. *)
Definition entity_hits (text : str) (entities : list str) : list str :=
  filter (fun entity => contains text (lower entity)) entities.

(** The article with its three texts in lower case. *)
Definition lower_texts (a : Article) : Article :=
  {| source_name := option_map lower (source_name a);
     title := option_map lower (title a);
     description := option_map lower (description a);
     url := url a; image_url := image_url a;
     published_at := published_at a |}.

(** [a] is an initial segment of [b]. *)
Definition prefix_of {A : Type} (a b : list A) : Prop :=
  exists rest, b = a ++ rest.

(** [event] is a hit of the search for [query]. *)
Definition mentions (query : str) (event : Event) : bool :=
  contains (searchable event) (lower query).

Definition has_title (i : news_item) : Prop :=
  title (item_article i) <> None.

(** The key point of an item that has a title. *)
Definition key_point_of (i : news_item) (k : str) : Prop :=
  exists t, title (item_article i) = Some t /\
    k = lit "[" ++ format_opt (source_name (item_article i)) ++ lit "] "
        ++ firstn 80 t.

(** A summary that was not written by the model. *)
Definition canned (n : nat) (s : EventSummary) : Prop :=
  sentiment s = lit "neutral" /\ confidence s = lit "low" /\
  sources_used s = n.


(** * Worked requests *)

Definition mk_event (t : string) (tags : list string) : Event :=
  {| ev_title := lit t; ev_description := [];
     ev_start_date := None; ev_end_date := None;
     ev_tags := map lit tags |}.

Definition naive (us : Z) : datetime := {| wall := us; tzinfo := None |}.

Definition mk_article (src t : string) (pub : option datetime) : Article :=
  {| source_name := Some (lit src); title := Some (lit t);
     description := None; url := Some []; image_url := None;
     published_at := pub |}.

Definition show (s : str) : string := string_of_list_ascii s.

Definition elon_event : Event := mk_event "Elon Musk buys Twitter" [].

Definition noon : Z := days 20000 + 43200000000.

Definition elon_articles : list Article :=
  [ mk_article "Reuters" "Elon Musk buys Twitter" (Some (naive (noon - days 1)));
    mk_article "A blog" "Nothing of note" None;
    mk_article "BBC News" "Musk again" (Some (naive (noon - days 2)));
    mk_article "Daily" "Twitter deal: elon" (Some (naive (noon - days 10)));
    mk_article "CNN" "Musk again" (Some (naive (noon - days 2))) ].

Definition elon_client (q : str) (from_date to_date : Z) (sort_by : str)
  (page_size : Z) : outcome (list Article * Z) :=
  Return (elon_articles, 5%Z).

Definition down_client (q : str) (from_date to_date : Z) (sort_by : str)
  (page_size : Z) : outcome (list Article * Z) :=
  Raise (PyException (lit "News API error: rateLimited")).

Definition empty_client (q : str) (from_date to_date : Z) (sort_by : str)
  (page_size : Z) : outcome (list Article * Z) :=
  Return ([], 0%Z).

Definition at_noon (tick : nat) : Z := noon.

Definition old_event : Event :=
  {| ev_title := lit "Fed decision"; ev_description := [];
     ev_start_date := Some (naive (noon - days 40)); ev_end_date := None;
     ev_tags := [] |}.

(** An event tagged with the name of the person. *)
Definition tagged_elon_event : Event :=
  mk_event "Elon Musk buys Twitter" ["Elon Musk"%string].

(** A title that names the same company twice. *)
Definition twice_event : Event := mk_event "Twitter buys Twitter" [].

(** A title with five names, separated by commas. *)
Definition five_names_event : Event :=
  mk_event "Apple, Google, Amazon, Tesla, Nvidia" [].

Definition elon_terms : list str := split (build_news_query elon_event 8).

Definition yesterday_article : Article :=
  mk_article "Reuters" "Elon Musk buys Twitter" (Some (naive (noon - days 1))).

Definition two_days_article : Article :=
  mk_article "BBC News" "Musk again" (Some (naive (noon - days 2))).

Definition four_days_article : Article :=
  mk_article "Daily" "Twitter deal: elon" (Some (naive (noon - days 4))).

Definition undated_article : Article :=
  mk_article "A blog" "Nothing of note" None.

Definition tomorrow_article : Article :=
  mk_article "Daily" "Twitter deal: elon" (Some (naive (noon + days 1))).


(** An article published 36 hours before noon. *)
Definition day_and_a_half_article : Article :=
  mk_article "Reuters" "Elon Musk buys Twitter"
    (Some (naive (noon - days 1 - 43200000000))).

(** An event that closes half a day after noon. *)
Definition closing_event : Event :=
  {| ev_title := lit "Fed decision"; ev_description := [];
     ev_start_date := None;
     ev_end_date := Some (naive (noon + 43200000000));
     ev_tags := [] |}.

(** An event that starts ten days after noon. *)
Definition future_event : Event :=
  {| ev_title := lit "Fed decision"; ev_description := [];
     ev_start_date := Some (naive (noon + days 10)); ev_end_date := None;
     ev_tags := [] |}.

(** An article of the day before that shares no word with
    [old_event]. *)
Definition fresh_unrelated_article : Article :=
  mk_article "A blog" "Nothing of note" (Some (naive (noon - days 1))).

Definition market_events : list Event :=
  [ mk_event "Fed decision in March" ["Economy"%string];
    elon_event;
    mk_event "Oscars" ["Awards"%string; "Elon"%string];
    tagged_elon_event ].

Definition market_client (limit offset : Z) (active closed : bool)
  (order : str) (ascending : bool) : outcome (list Event) :=
  Return market_events.

Definition untitled_article : Article :=
  {| source_name := None; title := None; description := None;
     url := Some []; image_url := None;
     published_at := None |}.

Definition elon_items : list news_item := map Plain elon_articles.

Definition failing_model (t d : str) (articles : list news_item)
  (price : option Q) : outcome EventSummary :=
  Raise (PyException (lit "HTTP Error 429: Too Many Requests")).

Definition slug_client (slug : str) : outcome (option Event) :=
  if str_eqb slug (lit "elon-musk-buys-twitter") then Return (Some elon_event)
  else Return None.


(** A stand-in for the text of the validation library. *)
Definition validation_text (sa : ScoredArticle) : str :=
  lit "1 validation error for ArticleResponse".

(** The body of the news route for the three best articles. *)
Definition elon_body : list ArticleResponse :=
  Eval vm_compute in
    match get_event_news slug_client elon_client at_noon validation_text
            (lit "elon-musk-buys-twitter") 3 with
    | Ok body => body
    | _ => []
    end.

(** * Properties *)

(** ** Lists, slices and the stable sort *)

Lemma str_eqb_eq (a b : str) : str_eqb a b = true <-> a = b.
Proof.
  revert b; induction a as [|x a IH]; intros [|y b]; simpl;
    try (split; [discriminate | congruence]); try tauto.
  rewrite andb_true_iff, Ascii.eqb_eq, IH.
  split; [intros [-> ->]; reflexivity | intros H; injection H; auto].
Qed.

Lemma mem_In (x : str) (l : list str) : mem x l = true <-> In x l.
Proof.
  unfold mem. rewrite existsb_exists. split.
  - intros [y [Hy E]]. apply str_eqb_eq in E. subst; assumption.
  - intros H. exists x. split; [assumption | apply str_eqb_eq; reflexivity].
Qed.

Lemma mem_false (x : str) (l : list str) : mem x l = false <-> ~ In x l.
Proof.
  rewrite <- mem_In. destruct (mem x l); split; congruence.
Qed.

Lemma slice_to_firstn {A} (n : Z) (l : list A) :
  exists k, slice_to n l = firstn k l.
Proof.
  unfold slice_to. destruct (0 <=? n)%Z; eexists; reflexivity.
Qed.

Lemma slice_to_all {A} (n : Z) (l : list A) :
  (Z.of_nat (length l) <= n)%Z -> slice_to n l = l.
Proof.
  intros H. unfold slice_to.
  destruct (0 <=? n)%Z eqn:E; [|apply Z.leb_gt in E; lia].
  apply firstn_all2. lia.
Qed.

Lemma In_firstn {A} (k : nat) (l : list A) (x : A) :
  In x (firstn k l) -> In x l.
Proof.
  intros H. rewrite <- (firstn_skipn k l). apply in_or_app. left; exact H.
Qed.

Lemma filter_firstn_prefix {A} (p : A -> bool) (k : nat) (l : list A) :
  exists rest, filter p l = filter p (firstn k l) ++ rest.
Proof.
  exists (filter p (skipn k l)).
  rewrite <- filter_app, firstn_skipn. reflexivity.
Qed.

Lemma Sorted_firstn {A} (R : A -> A -> Prop) (k : nat) (l : list A) :
  Sorted R l -> Sorted R (firstn k l).
Proof.
  revert k; induction l as [|x l IH]; intros [|k] H; simpl; auto.
  inversion H as [|? ? Hs Hh]; subst.
  constructor; [apply IH; assumption|].
  destruct l as [|y l]; destruct k; simpl; constructor.
  inversion Hh; assumption.
Qed.

Lemma insert_desc_perm x l : Permutation (insert_desc x l) (x :: l).
Proof.
  induction l as [|y l IH]; simpl; [reflexivity|].
  destruct (score x <? score y)%Z; [|reflexivity].
  rewrite IH. apply perm_swap.
Qed.

Lemma sort_desc_perm l : Permutation (sort_desc l) l.
Proof.
  induction l as [|x l IH]; simpl; [reflexivity|].
  rewrite insert_desc_perm. constructor; assumption.
Qed.

Lemma insert_desc_sorted x l :
  Sorted score_ge l -> Sorted score_ge (insert_desc x l).
Proof.
  induction l as [|y l IH]; intros H; simpl.
  - repeat constructor.
  - destruct (score x <? score y)%Z eqn:E.
    + inversion H as [|? ? Hs Hh]; subst.
      constructor; [apply IH; assumption|].
      destruct l as [|z l]; simpl.
      * constructor. unfold score_ge. apply Z.ltb_lt in E. lia.
      * destruct (score x <? score z)%Z eqn:E2; constructor.
        -- inversion Hh; assumption.
        -- unfold score_ge. apply Z.ltb_lt in E. lia.
    + constructor; [assumption|]. constructor.
      unfold score_ge. apply Z.ltb_ge in E. assumption.
Qed.

Lemma sort_desc_sorted l : Sorted score_ge (sort_desc l).
Proof.
  induction l as [|x l IH]; simpl; [constructor|].
  apply insert_desc_sorted; assumption.
Qed.

Lemma insert_desc_stable v x l :
  with_score v (insert_desc x l) = with_score v (x :: l).
Proof.
  unfold with_score.
  induction l as [|y l IH]; simpl; [reflexivity|].
  destruct (score x <? score y)%Z eqn:E; [|reflexivity].
  simpl. rewrite IH. simpl.
  destruct (score y =? v)%Z eqn:Ey, (score x =? v)%Z eqn:Ex; try reflexivity.
  apply Z.eqb_eq in Ey, Ex. apply Z.ltb_lt in E. lia.
Qed.

Lemma sort_desc_stable v l : with_score v (sort_desc l) = with_score v l.
Proof.
  induction l as [|x l IH]; simpl; [reflexivity|].
  rewrite insert_desc_stable. unfold with_score in *. simpl.
  rewrite IH. reflexivity.
Qed.

Lemma with_score_filter v p l :
  with_score v (filter p l) = filter p (with_score v l).
Proof.
  unfold with_score. induction l as [|x l IH]; simpl; [reflexivity|].
  destruct (p x) eqn:Ep, (score x =? v)%Z eqn:Ev; simpl;
    rewrite ?Ep, ?Ev, IH; reflexivity.
Qed.

(** ** The orchestrator: score floor, order, degradation *)

Section OrchestratorFacts.

Variable search_everything :
  str -> Z -> Z -> str -> Z -> outcome (list Article * Z).
Variable clock : nat -> Z.

Lemma match_news_to_event_eq event max_articles min_score :
  match_news_to_event search_everything clock event max_articles min_score =
  w <- get_time_window (clock 0) event 7 2 ;;
  match search search_everything event w with
  | Raise (PyException e) => Return []
  | Raise e => Raise e
  | Return (articles, _) =>
      Return (slice_to max_articles
                (sort_desc (filter (clears min_score)
                                   (scored_fetch clock event articles))))
  end.
Proof.
  unfold match_news_to_event, search, scored_fetch.
  destruct (get_time_window (clock 0) event 7 2) as [[f t]|e]; reflexivity.
Qed.

Lemma match_news_to_event_fetched event max_articles min_score articles total :
  fetch search_everything clock event = Return (articles, total) ->
  match_news_to_event search_everything clock event max_articles min_score =
  Return (slice_to max_articles
            (sort_desc (filter (clears min_score)
                               (scored_fetch clock event articles)))).
Proof.
  intros H. rewrite match_news_to_event_eq. unfold fetch in H.
  destruct (get_time_window (clock 0) event 7 2) as [w|e];
    cbn [bind] in *; [rewrite H; reflexivity | discriminate].
Qed.

Lemma match_news_to_event_searched event max_articles min_score w msg :
  get_time_window (clock 0) event 7 2 = Return w ->
  search search_everything event w = Raise (PyException msg) ->
  match_news_to_event search_everything clock event max_articles min_score =
  Return [].
Proof.
  intros Hw Hs. rewrite match_news_to_event_eq, Hw. cbn [bind].
  rewrite Hs. reflexivity.
Qed.

Lemma score_all_article tick articles event terms :
  map article (score_all clock tick articles event terms) = articles.
Proof.
  revert tick; induction articles as [|a l IH]; intros tick; simpl;
    [reflexivity|].
  rewrite IH. reflexivity.
Qed.

Lemma clears_with_score min_score v l :
  filter (clears min_score) (with_score v l) = with_score v l \/
  filter (clears min_score) (with_score v l) = [].
Proof.
  destruct (Qle_bool min_score (inject_Z v)) eqn:E; [left | right];
    unfold with_score; induction l as [|x l IH]; simpl; try reflexivity;
    destruct (score x =? v)%Z eqn:Ev; simpl; try assumption;
    apply Z.eqb_eq in Ev; unfold clears at 1; rewrite Ev, E;
    [rewrite IH; reflexivity | assumption].
Qed.

(** C1.  When the News Client returns an article list, the orchestrator
    returns a list in which every [ScoredArticle] has
    [score >= min_score], whatever [min_score] (2.0 by default),
    [max_articles], the event and the readings of the clock are. *)
Theorem match_news_to_event_score_floor
  (event : Event) (max_articles : Z) (min_score : Q)
  (articles : list Article) (total : Z) :
  fetch search_everything clock event = Return (articles, total) ->
  exists l,
    match_news_to_event search_everything clock event max_articles min_score
      = Return l /\
    Forall (fun s => (min_score <= inject_Z (score s))%Q) l.
Proof.
  intros Hf. rewrite (match_news_to_event_fetched _ _ _ _ _ Hf).
  eexists; split; [reflexivity|].
  apply Forall_forall. intros s Hs.
  destruct (slice_to_firstn max_articles
    (sort_desc (filter (clears min_score) (scored_fetch clock event articles))))
    as [k Hk].
  rewrite Hk in Hs. apply In_firstn in Hs.
  apply (Permutation_in _ (sort_desc_perm _)) in Hs.
  apply filter_In in Hs. destruct Hs as [_ Hc].
  apply Qle_bool_iff. exact Hc.
Qed.

(** C2.  When the News Client returns an article list, the returned list
    is in descending order of score (every element is at least its
    successor), and the elements of any one score appear in it in the
    order of the fetched list: they are an initial segment of the
    elements of that score in the scored fetch list, whose articles are
    the fetched articles in fetch order. *)
Theorem match_news_to_event_sorted_stable
  (event : Event) (max_articles : Z) (min_score : Q)
  (articles : list Article) (total : Z) :
  fetch search_everything clock event = Return (articles, total) ->
  exists l,
    match_news_to_event search_everything clock event max_articles min_score
      = Return l /\
    Sorted score_ge l /\
    map article (scored_fetch clock event articles) = articles /\
    forall v, exists rest,
      with_score v (scored_fetch clock event articles) = with_score v l ++ rest.
Proof.
  intros Hf. rewrite (match_news_to_event_fetched _ _ _ _ _ Hf).
  eexists; split; [reflexivity|].
  set (L := scored_fetch clock event articles).
  destruct (slice_to_firstn max_articles
              (sort_desc (filter (clears min_score) L))) as [k Hk].
  rewrite Hk. split; [|split].
  - apply Sorted_firstn, sort_desc_sorted.
  - apply score_all_article.
  - intros v. unfold with_score at 2.
    destruct (filter_firstn_prefix (fun s => (score s =? v)%Z) k
                (sort_desc (filter (clears min_score) L))) as [rest Hr].
    fold (with_score v (sort_desc (filter (clears min_score) L))) in Hr.
    rewrite sort_desc_stable, with_score_filter in Hr.
    destruct (clears_with_score min_score v L) as [E | E]; rewrite E in Hr.
    + exists rest. exact Hr.
    + exists (with_score v L).
      symmetry in Hr. apply app_eq_nil in Hr. destruct Hr as [-> _].
      reflexivity.
Qed.

(** C3.  When the search of the News Client raises an exception, the
    orchestrator returns the empty list instead of raising; when the
    search returns no article, it returns the empty list as well.  The
    search is made with the window of the event, once that is
    computed. *)
Theorem match_news_to_event_degrades
  (event : Event) (max_articles : Z) (min_score : Q) :
  (forall msg w,
     get_time_window (clock 0) event 7 2 = Return w ->
     search search_everything event w = Raise (PyException msg) ->
     match_news_to_event search_everything clock event max_articles min_score
       = Return []) /\
  (forall total, fetch search_everything clock event = Return ([], total) ->
     match_news_to_event search_everything clock event max_articles min_score
       = Return []).
Proof.
  split.
  - intros msg w Hw Hs.
    apply (match_news_to_event_searched _ _ _ w msg Hw Hs).
  - intros total Hf. rewrite (match_news_to_event_fetched _ _ _ _ _ Hf).
    unfold scored_fetch. simpl.
    destruct (slice_to_firstn max_articles (@nil ScoredArticle)) as [k ->].
    rewrite firstn_nil. reflexivity.
Qed.

End OrchestratorFacts.

(** ** The time window *)

Lemma is_datetime_iff t :
  is_datetime t = true <-> (datetime_min <= t <= datetime_max)%Z.
Proof.
  unfold is_datetime. rewrite andb_true_iff, !Z.leb_le. tauto.
Qed.

Lemma timedelta_ok n :
  (Z.abs n <= 999999999)%Z -> timedelta n = Return (days n).
Proof.
  intros H. unfold timedelta. apply Z.leb_le in H. rewrite H. reflexivity.
Qed.


Lemma datetime_sub_ok dt td :
  (datetime_min <= dt - td <= datetime_max)%Z ->
  datetime_sub dt td = Return (dt - td)%Z.
Proof.
  intros H. unfold datetime_sub. apply is_datetime_iff in H. rewrite H.
  reflexivity.
Qed.


(** What [from_date] is when the two subtractions give datetimes. *)
Lemma from_date_of_start now event d b start_date :
  ev_start_date event = Some start_date ->
  (Z.abs b <= 999999999)%Z ->
  (datetime_min <= to_naive start_date - days b <= datetime_max)%Z ->
  from_date_of now event d b
  = Return (Z.max (to_naive start_date - days b) (now - days 30)).
Proof.
  intros Hs Hb Hr. unfold from_date_of. rewrite Hs, (timedelta_ok _ Hb).
  cbn [bind]. rewrite (datetime_sub_ok _ _ Hr). reflexivity.
Qed.

Lemma from_date_of_default now event d b :
  ev_start_date event = None ->
  (Z.abs d <= 999999999)%Z ->
  (datetime_min <= now - days d <= datetime_max)%Z ->
  from_date_of now event d b = Return (now - days d)%Z.
Proof.
  intros Hs Hd Hr. unfold from_date_of. rewrite Hs, (timedelta_ok _ Hd).
  cbn [bind]. apply (datetime_sub_ok _ _ Hr).
Qed.



(** ** The scorer *)

Lemma join_tally_zero t : join_tally t zero = t.
Proof.
  destruct t as [s r]. unfold join_tally, zero; simpl.
  rewrite Z.add_0_r, app_nil_r. reflexivity.
Qed.

Lemma join_tally_assoc a b c :
  join_tally (join_tally a b) c = join_tally a (join_tally b c).
Proof.
  unfold join_tally; simpl. rewrite Z.add_assoc, app_assoc. reflexivity.
Qed.

Lemma award_join w tag t : award w tag t = join_tally t (award w tag zero).
Proof. reflexivity. Qed.

Lemma title_rule_join text terms t :
  title_rule text terms t = join_tally t (title_rule text terms zero).
Proof.
  unfold title_rule. destruct (0 <? count_matches text terms);
    [apply award_join | symmetry; apply join_tally_zero].
Qed.

Lemma desc_rule_join text terms t :
  desc_rule text terms t = join_tally t (desc_rule text terms zero).
Proof.
  unfold desc_rule. destruct (0 <? count_matches text terms);
    [apply award_join | symmetry; apply join_tally_zero].
Qed.

Lemma entity_rule_join text entities t :
  entity_rule text entities t = join_tally t (entity_rule text entities zero).
Proof.
  revert t; induction entities as [|e l IH]; intros t; simpl.
  - symmetry; apply join_tally_zero.
  - destruct (contains text (lower e)); [|apply IH].
    rewrite IH, (IH (award _ _ zero)), <- join_tally_assoc. reflexivity.
Qed.

Lemma recency_rule_join now published t :
  recency_rule now published t = join_tally t (recency_rule now published zero).
Proof.
  unfold recency_rule. destruct published as [p|];
    [|symmetry; apply join_tally_zero].
  destruct (_ <=? 1)%Z; [apply award_join|].
  destruct (_ <=? 3)%Z; [apply award_join | symmetry; apply join_tally_zero].
Qed.

Lemma source_rule_join src t :
  source_rule src t = join_tally t (source_rule src zero).
Proof.
  unfold source_rule. destruct (existsb _ _);
    [apply award_join | symmetry; apply join_tally_zero].
Qed.

Lemma score_tally_split now a event terms :
  score_tally now a event terms =
  join_tally (join_tally (text_tally a event terms)
                         (recency_rule now (published_at a) zero))
             (source_tally a).
Proof.
  unfold score_tally, text_tally, source_tally.
  rewrite source_rule_join, recency_rule_join. reflexivity.
Qed.

Lemma score_tally_undated now a event terms :
  score_tally now (undated a) event terms =
  join_tally (text_tally a event terms) (source_tally a).
Proof.
  rewrite score_tally_split. simpl. rewrite join_tally_zero. reflexivity.
Qed.

Lemma title_rule_tags text terms :
  Forall (starts_with "t") (snd (title_rule text terms zero)).
Proof.
  unfold title_rule. destruct (0 <? _); simpl; repeat constructor.
  eexists; reflexivity.
Qed.

Lemma desc_rule_tags text terms :
  Forall (starts_with "d") (snd (desc_rule text terms zero)).
Proof.
  unfold desc_rule. destruct (0 <? _); simpl; repeat constructor.
  eexists; reflexivity.
Qed.

Lemma entity_rule_tags text entities :
  Forall (starts_with "e") (snd (entity_rule text entities zero)).
Proof.
  induction entities as [|e l IH]; simpl; [constructor|].
  destruct (contains text (lower e)); [|exact IH].
  rewrite entity_rule_join. simpl. constructor; [|exact IH].
  eexists; reflexivity.
Qed.

Lemma text_tally_tags a event terms :
  Forall text_tag (snd (text_tally a event terms)).
Proof.
  unfold text_tally.
  rewrite entity_rule_join, desc_rule_join. simpl.
  apply Forall_app; split; [apply Forall_app; split|].
  - eapply Forall_impl; [|apply title_rule_tags]. unfold text_tag; tauto.
  - eapply Forall_impl; [|apply desc_rule_tags]. unfold text_tag; tauto.
  - eapply Forall_impl; [|apply entity_rule_tags]. unfold text_tag; tauto.
Qed.

Lemma source_tally_tags a : Forall (starts_with "q") (snd (source_tally a)).
Proof.
  unfold source_tally, source_rule. destruct (existsb _ _); simpl;
    repeat constructor. eexists; reflexivity.
Qed.

Lemma not_in_other_tags (tag : str) (c : ascii) a event terms :
  starts_with c tag ->
  c <> "t"%char -> c <> "d"%char -> c <> "e"%char -> c <> "q"%char ->
  ~ In tag (snd (text_tally a event terms)) /\
  ~ In tag (snd (source_tally a)).
Proof.
  intros [r ->] Ht Hd He Hq. split; intros H.
  - pose proof (text_tally_tags a event terms) as F.
    rewrite Forall_forall in F. apply F in H.
    destruct H as [[x E] | [[x E] | [x E]]]; congruence.
  - pose proof (source_tally_tags a) as F.
    rewrite Forall_forall in F. apply F in H.
    destruct H as [x E]. congruence.
Qed.

Lemma score_article_undated now a event terms :
  score (score_article now (undated a) event terms)
  = (fst (text_tally a event terms) + fst (source_tally a))%Z /\
  match_reasons (score_article now (undated a) event terms)
  = snd (text_tally a event terms) ++ snd (source_tally a).
Proof.
  unfold score_article; simpl. rewrite score_tally_undated. split; reflexivity.
Qed.

(** The score and the reasons of a dated article, by the bonus [d] it
    was given. *)
Lemma score_article_bonus now a event terms (d : tally) :
  recency_rule now (published_at a) zero = d ->
  score (score_article now a event terms)
  = (score (score_article now (undated a) event terms) + fst d)%Z /\
  match_reasons (score_article now a event terms)
  = snd (text_tally a event terms) ++ snd d ++ snd (source_tally a).
Proof.
  intros E. destruct (score_article_undated now a event terms) as [-> _].
  unfold score_article; simpl. rewrite score_tally_split, E. simpl.
  split; [lia | rewrite app_assoc; reflexivity].
Qed.

Lemma recency_tag_in (tag other : str) (c : ascii) a event terms :
  starts_with c other ->
  c <> "t"%char -> c <> "d"%char -> c <> "e"%char -> c <> "q"%char ->
  tag <> other ->
  In tag (snd (text_tally a event terms) ++ [tag] ++ snd (source_tally a)) /\
  ~ In other (snd (text_tally a event terms) ++ [tag] ++ snd (source_tally a)).
Proof.
  intros Hc Ht Hd He Hq Hne. split.
  - apply in_or_app; right; left; reflexivity.
  - destruct (not_in_other_tags _ c a event terms Hc Ht Hd He Hq) as [N1 N2].
    intros H. apply in_app_or in H. destruct H as [H | [H | H]]; auto.
Qed.

Lemma recency_tag_out (other : str) (c : ascii) a event terms :
  starts_with c other ->
  c <> "t"%char -> c <> "d"%char -> c <> "e"%char -> c <> "q"%char ->
  ~ In other (snd (text_tally a event terms) ++ [] ++ snd (source_tally a)).
Proof.
  intros Hc Ht Hd He Hq.
  destruct (not_in_other_tags _ c a event terms Hc Ht Hd He Hq) as [N1 N2].
  intros H. apply in_app_or in H. destruct H as [H | H]; auto.
Qed.

Lemma very_recent_v : starts_with "v" very_recent.
Proof. eexists; reflexivity. Qed.

Lemma recent_r : starts_with "r" recent.
Proof. eexists; reflexivity. Qed.

Ltac tag_chars := try assumption; try discriminate;
  first [exact very_recent_v | exact recent_r | idtac].

(** The three outcomes of rule 4 on a dated article, by its age
    [days_old] in whole days. *)
Lemma score_article_by_age now a event terms p :
  published_at a = Some p ->
  let sa := score_article now a event terms in
  let base := score (score_article now (undated a) event terms) in
  let days_old := td_days (now - to_naive p) in
  ((days_old <= 1)%Z ->
     score sa = (base + 2)%Z /\
     In very_recent (match_reasons sa) /\ ~ In recent (match_reasons sa)) /\
  ((1 < days_old <= 3)%Z ->
     score sa = (base + 1)%Z /\
     In recent (match_reasons sa) /\ ~ In very_recent (match_reasons sa)) /\
  ((3 < days_old)%Z ->
     score sa = base /\
     ~ In very_recent (match_reasons sa) /\ ~ In recent (match_reasons sa)).
Proof.
  intros Hp sa base days_old. subst sa base.
  split; [|split]; intros Hd.
  - destruct (score_article_bonus now a event terms (award 2 very_recent zero))
      as [-> ->].
    { rewrite Hp. unfold recency_rule. fold days_old.
      destruct (days_old <=? 1)%Z eqn:E; [reflexivity|].
      apply Z.leb_gt in E; lia. }
    split; [reflexivity|].
    apply (recency_tag_in very_recent recent "r"); tag_chars.
  - destruct (score_article_bonus now a event terms (award 1 recent zero))
      as [-> ->].
    { rewrite Hp. unfold recency_rule. fold days_old.
      destruct (days_old <=? 1)%Z eqn:E; [apply Z.leb_le in E; lia|].
      destruct (days_old <=? 3)%Z eqn:E3; [reflexivity|].
      apply Z.leb_gt in E3; lia. }
    split; [reflexivity|].
    apply (recency_tag_in recent very_recent "v"); tag_chars.
  - destruct (score_article_bonus now a event terms zero) as [-> ->].
    { rewrite Hp. unfold recency_rule. fold days_old.
      destruct (days_old <=? 1)%Z eqn:E; [apply Z.leb_le in E; lia|].
      destruct (days_old <=? 3)%Z eqn:E3; [apply Z.leb_le in E3; lia|].
      reflexivity. }
    split; [simpl; lia|].
    split; [apply (recency_tag_out very_recent "v") | apply (recency_tag_out recent "r")];
      tag_chars.
Qed.

Lemma td_days_ago now n : td_days (now - (now - days n)) = n.
Proof.
  replace (now - (now - days n))%Z with (days n) by lia.
  unfold td_days, days. apply Z.div_mul. discriminate.
Qed.

Lemma td_days_le td n : (td_days td <= n <-> td < days (n + 1))%Z.
Proof.
  unfold td_days, days, day_us.
  pose proof (Z.div_mod td 86400000000 ltac:(discriminate)).
  pose proof (Z.mod_pos_bound td 86400000000 ltac:(reflexivity)).
  nia.
Qed.

(** C4.  For an article with a publication date, measured against the
    reading [now] of the clock and with the age counted in whole elapsed
    days ([days_old], as the code computes it): an age of at most 1 adds
    2 to the score and the reason [very_recent]; otherwise an age of at
    most 3 adds 1 and the reason [recent]; otherwise nothing is added.
    Published exactly 1 day ago: +2; 2 days ago: +1; 4 days ago: neither.
    In elapsed time, an age of at most 1 whole day is less than 2 days
    and an age of at most 3 whole days is less than 4 days.  Without a
    publication date the rule adds nothing, and the scorer still
    returns. *)
Theorem score_article_recency
  (now : Z) (a : Article) (event : Event) (query_terms : list str) :
  let sa := score_article now a event query_terms in
  let base := score (score_article now (undated a) event query_terms) in
  (forall p, published_at a = Some p ->
     let days_old := td_days (now - to_naive p) in
     ((days_old <= 1)%Z ->
        score sa = (base + 2)%Z /\
        In very_recent (match_reasons sa) /\ ~ In recent (match_reasons sa)) /\
     ((1 < days_old <= 3)%Z ->
        score sa = (base + 1)%Z /\
        In recent (match_reasons sa) /\ ~ In very_recent (match_reasons sa)) /\
     ((3 < days_old)%Z ->
        score sa = base /\
        ~ In very_recent (match_reasons sa) /\ ~ In recent (match_reasons sa)) /\
     (to_naive p = (now - days 1)%Z ->
        score sa = (base + 2)%Z /\ In very_recent (match_reasons sa)) /\
     (to_naive p = (now - days 2)%Z ->
        score sa = (base + 1)%Z /\ In recent (match_reasons sa)) /\
     (to_naive p = (now - days 4)%Z ->
        score sa = base /\
        ~ In very_recent (match_reasons sa) /\ ~ In recent (match_reasons sa)) /\
     ((days_old <= 1)%Z <-> (now - to_naive p < days 2)%Z) /\
     ((days_old <= 3)%Z <-> (now - to_naive p < days 4)%Z)) /\
  (published_at a = None ->
     score sa = base /\
     ~ In very_recent (match_reasons sa) /\ ~ In recent (match_reasons sa)).
Proof.
  intros sa base. split.
  - intros p Hp days_old.
    destruct (score_article_by_age now a event query_terms p Hp) as (H1 & H2 & H3).
    fold sa base days_old in H1, H2, H3.
    split; [exact H1|]. split; [exact H2|]. split; [exact H3|].
    split; [|split; [|split; [|split]]];
      try (intros E; subst days_old; rewrite E, td_days_ago in H1, H2, H3).
    + destruct H1 as (? & ? & ?); [lia | tauto].
    + destruct H2 as (? & ? & ?); [lia | tauto].
    + apply H3; lia.
    + apply td_days_le.
    + apply td_days_le.
  - intros Hp. subst sa base.
    destruct (score_article_bonus now a event query_terms zero)
      as [-> ->].
    { rewrite Hp; reflexivity. }
    split; [simpl; lia|].
    split; [apply (recency_tag_out very_recent "v") | apply (recency_tag_out recent "r")];
      tag_chars.
Qed.

(** C9.  An article whose publication date is later than the reading
    [now] of the clock has a negative age in whole days and is given the
    [very_recent] bonus of 2. *)
Theorem score_article_future_published
  (now : Z) (a : Article) (event : Event) (query_terms : list str)
  (p : datetime) :
  published_at a = Some p ->
  (now < to_naive p)%Z ->
  let sa := score_article now a event query_terms in
  (td_days (now - to_naive p) < 0)%Z /\
  score sa = (score (score_article now (undated a) event query_terms) + 2)%Z /\
  In very_recent (match_reasons sa) /\ ~ In recent (match_reasons sa).
Proof.
  intros Hp Hlt sa.
  assert (Hd : (td_days (now - to_naive p) < 0)%Z).
  { unfold td_days. apply Z.div_lt_upper_bound; [reflexivity | lia]. }
  split; [exact Hd|].
  apply (score_article_by_age now a event query_terms p Hp). lia.
Qed.

(** *** Score and reasons grow together *)

Lemma paid_zero : paid zero.
Proof. split; simpl; [lia | reflexivity]. Qed.

Lemma paid_award w tag t : (1 <= w)%Z -> paid t -> paid (award w tag t).
Proof.
  intros Hw [H1 H2]. split; simpl.
  - rewrite length_app. simpl. lia.
  - intros E. apply app_eq_nil in E. destruct E as [_ E]. discriminate.
Qed.

Lemma paid_title_rule text terms t : paid t -> paid (title_rule text terms t).
Proof.
  intros H. unfold title_rule.
  destruct (0 <? count_matches text terms) eqn:E; [|exact H].
  apply Nat.ltb_lt in E. apply paid_award; [lia | exact H].
Qed.

Lemma paid_desc_rule text terms t : paid t -> paid (desc_rule text terms t).
Proof.
  intros H. unfold desc_rule.
  destruct (0 <? count_matches text terms) eqn:E; [|exact H].
  apply Nat.ltb_lt in E. apply paid_award; [lia | exact H].
Qed.

Lemma paid_entity_rule text entities t :
  paid t -> paid (entity_rule text entities t).
Proof.
  revert t; induction entities as [|e l IH]; intros t H; simpl; [exact H|].
  destruct (contains text (lower e)); apply IH; [|exact H].
  apply paid_award; [lia | exact H].
Qed.

Lemma paid_recency_rule now published t :
  paid t -> paid (recency_rule now published t).
Proof.
  intros H. unfold recency_rule. destruct published as [p|]; [|exact H].
  destruct (_ <=? 1)%Z; [apply paid_award; [lia | exact H]|].
  destruct (_ <=? 3)%Z; [apply paid_award; [lia | exact H] | exact H].
Qed.

Lemma paid_source_rule src t : paid t -> paid (source_rule src t).
Proof.
  intros H. unfold source_rule.
  destruct (existsb _ _); [apply paid_award; [lia | exact H] | exact H].
Qed.

Lemma paid_score_tally now a event terms :
  paid (score_tally now a event terms).
Proof.
  unfold score_tally.
  apply paid_source_rule, paid_recency_rule, paid_entity_rule,
    paid_desc_rule, paid_title_rule, paid_zero.
Qed.

(** C8.  The score returned by [score_article] is non-negative, and it is
    0 exactly when [match_reasons] is empty. *)
Theorem score_article_nonneg
  (now : Z) (a : Article) (event : Event) (query_terms : list str) :
  let sa := score_article now a event query_terms in
  (0 <= score sa)%Z /\ (score sa = 0%Z <-> match_reasons sa = []).
Proof.
  destruct (paid_score_tally now a event query_terms) as [H1 H2].
  unfold score_article; simpl. split; [lia|]. split; [|exact H2].
  intros E. rewrite E in H1.
  destruct (snd (score_tally now a event query_terms)); [reflexivity|].
  simpl in H1. lia.
Qed.

(** *** The title rule *)

Lemma count_matches_length text terms :
  count_matches text terms = length (matching_terms text terms).
Proof.
  unfold matching_terms, term_clean.
  induction terms as [|x l IH]; simpl; [reflexivity|].
  destruct (contains text _); simpl; rewrite IH; reflexivity.
Qed.

Lemma title_rule_part text terms :
  title_rule text terms zero = title_part (length (matching_terms text terms)).
Proof.
  unfold title_rule, title_part. rewrite count_matches_length.
  destruct (length (matching_terms text terms)) as [|n]; [reflexivity|].
  change (0 <? S n) with true. change (S n =? 0) with false. cbv iota.
  unfold award, zero. cbn [fst snd app]. f_equal. lia.
Qed.

Lemma score_tally_title_first now a event terms :
  score_tally now a event terms =
  join_tally
    (title_rule (lower (or_empty (title a))) terms zero)
    (join_tally
      (join_tally
        (join_tally (desc_rule (lower (or_empty (description a))) terms zero)
           (entity_rule (lower (or_empty (title a)))
              (named_entities (ev_title event)) zero))
        (recency_rule now (published_at a) zero))
      (source_tally a)).
Proof.
  rewrite score_tally_split. unfold text_tally.
  rewrite entity_rule_join, desc_rule_join.
  rewrite <- !join_tally_assoc. reflexivity.
Qed.

Lemma other_rules_no_title_tag now a event terms :
  Forall (fun r => is_title_tag r = false)
    (snd (join_tally
      (join_tally
        (join_tally (desc_rule (lower (or_empty (description a))) terms zero)
           (entity_rule (lower (or_empty (title a)))
              (named_entities (ev_title event)) zero))
        (recency_rule now (published_at a) zero))
      (source_tally a))).
Proof.
  simpl. repeat (apply Forall_app; split).
  - eapply Forall_impl; [|apply desc_rule_tags]. intros r [x ->]; reflexivity.
  - eapply Forall_impl; [|apply entity_rule_tags]. intros r [x ->]; reflexivity.
  - unfold recency_rule. destruct (published_at a); [|constructor].
    destruct (_ <=? 1)%Z; [repeat constructor|].
    destruct (_ <=? 3)%Z; repeat constructor.
  - eapply Forall_impl; [|apply source_tally_tags]. intros r [x ->]; reflexivity.
Qed.

(** C5, as the code has it.  The title rule adds 3 points for every entry
    of the query-term list whose cleaned form (quote markers stripped,
    lower-cased) is a substring of the lower-cased article title, and,
    when at least one entry matches, appends exactly one reason
    [title_match:<count>], where the count is the number of matching
    entries of the list, a term listed twice being counted twice; no
    other rule of [score_article] emits a [title_match:] reason. *)
Theorem title_rule_counts_entries
  (now : Z) (a : Article) (event : Event) (query_terms : list str) :
  let article_title := lower (or_empty (title a)) in
  let n := length (matching_terms article_title query_terms) in
  (forall t, title_rule article_title query_terms t
             = ((fst t + 3 * Z.of_nat n)%Z,
                snd t ++ (if n =? 0 then [] else [title_tag n]))) /\
  exists others,
    score_tally now a event query_terms
      = join_tally ((3 * Z.of_nat n)%Z, if n =? 0 then [] else [title_tag n])
                   others /\
    Forall (fun r => is_title_tag r = false) (snd others).
Proof.
  intros article_title n. split.
  - intros t. rewrite title_rule_join, title_rule_part. reflexivity.
  - eexists. split.
    + rewrite score_tally_title_first, title_rule_part. reflexivity.
    + apply other_rules_no_title_tag.
Qed.

(** ** A worked request *)

Example elon_query :
  show (build_news_query elon_event 8)
  = show (quoted (lit "Twitter") ++ space :: quoted (lit "Elon Musk")
          ++ lit " elon musk buys twitter").
Proof. vm_compute. reflexivity. Qed.

Example elon_scores :
  map score (scored_fetch at_noon elon_event elon_articles)
  = [34; 0; 8; 17; 8]%Z.
Proof. vm_compute. reflexivity. Qed.

(** The ranking: the blog is dropped, and the two articles of score 8
    stay in fetch order. *)
Example elon_ranking :
  match match_news_to_event elon_client at_noon elon_event 5 2 with
  | Return l => map (fun s => show (or_empty (source_name (article s)))) l
  | Raise _ => []
  end
  = ["Reuters"; "Daily"; "BBC News"; "CNN"]%string.
Proof. vm_compute. reflexivity. Qed.

Lemma match_news_to_event_score_floor_witness :
  exists l,
    match_news_to_event elon_client at_noon elon_event 5 2 = Return l /\
    Forall (fun s => (2 <= inject_Z (score s))%Q) l.
Proof.
  apply (match_news_to_event_score_floor elon_client at_noon elon_event 5 2
           elon_articles 5).
  reflexivity.
Defined.

Lemma match_news_to_event_sorted_stable_witness :
  exists l,
    match_news_to_event elon_client at_noon elon_event 5 2 = Return l /\
    Sorted score_ge l /\
    map article (scored_fetch at_noon elon_event elon_articles)
      = elon_articles /\
    forall v, exists rest,
      with_score v (scored_fetch at_noon elon_event elon_articles)
      = with_score v l ++ rest.
Proof.
  apply (match_news_to_event_sorted_stable elon_client at_noon elon_event 5 2
           elon_articles 5).
  reflexivity.
Defined.

Lemma match_news_to_event_degrades_witness :
  match_news_to_event down_client at_noon elon_event 5 2 = Return [] /\
  match_news_to_event empty_client at_noon elon_event 5 2 = Return [].
Proof.
  split.
  - apply (proj1 (match_news_to_event_degrades down_client at_noon
                    elon_event 5 2) (lit "News API error: rateLimited")
             ((noon - days 7)%Z, noon)).
    + vm_compute. reflexivity.
    + reflexivity.
  - apply (proj2 (match_news_to_event_degrades empty_client at_noon
                    elon_event 5 2) 0%Z).
    vm_compute. reflexivity.
Defined.



(** ** Named entities: what the pattern finds *)

Module EntityFacts.
Import Regex EntityRe EntitySpec.

Lemma before_app prev a b : before prev (a ++ b) = before (before prev a) b.
Proof. unfold before. apply fold_left_app. Qed.

Lemma before_last prev pre c :
  pre <> [] -> before prev pre = Some (last pre c).
Proof.
  revert prev; induction pre as [|x l IH]; intros prev H; [congruence|].
  destruct l as [|y l]; [reflexivity|].
  change (before prev (x :: y :: l)) with (before (Some x) (y :: l)).
  rewrite IH by discriminate. reflexivity.
Qed.

(** *** Character classes *)

Lemma upper_word c : is_upper c = true -> is_word c = true.
Proof. unfold is_word. intros ->. reflexivity. Qed.

Lemma lower_word c : is_lower c = true -> is_word c = true.
Proof. unfold is_word. intros ->. rewrite orb_true_r. reflexivity. Qed.

Lemma range_disjoint a b a' b' c :
  b < a' -> in_range a b c = true -> in_range a' b' c = false.
Proof.
  unfold in_range. intros H E.
  apply andb_true_iff in E. destruct E as [_ E]. apply Nat.leb_le in E.
  apply andb_false_iff. left. apply Nat.leb_gt. lia.
Qed.

Lemma range_disjoint' a b a' b' c :
  b' < a -> in_range a b c = true -> in_range a' b' c = false.
Proof.
  unfold in_range. intros H E.
  apply andb_true_iff in E. destruct E as [E _]. apply Nat.leb_le in E.
  apply andb_false_iff. right. apply Nat.leb_gt. lia.
Qed.

Lemma upper_not_lower c : is_upper c = true -> is_lower c = false.
Proof. apply range_disjoint. lia. Qed.

Lemma upper_not_space c : is_upper c = true -> is_space c = false.
Proof.
  intros H. unfold is_space.
  rewrite (range_disjoint' 65 90 9 13 c), (range_disjoint' 65 90 28 32 c);
    auto; lia.
Qed.

Lemma lower_not_upper c : is_lower c = true -> is_upper c = false.
Proof. apply range_disjoint'. lia. Qed.

Lemma space_not_word c : is_space c = true -> is_word c = false.
Proof.
  unfold is_space, is_word, is_upper, is_lower, is_digit. intros H.
  apply orb_true_iff in H. destruct H as [H | H].
  - rewrite (range_disjoint 9 13 65 90 c), (range_disjoint 9 13 97 122 c),
      (range_disjoint 9 13 48 57 c); auto; try lia. simpl.
    unfold in_range in H. apply andb_true_iff in H. destruct H as [_ H].
    apply Nat.leb_le in H. apply Nat.eqb_neq. lia.
  - rewrite (range_disjoint 28 32 65 90 c), (range_disjoint 28 32 97 122 c),
      (range_disjoint 28 32 48 57 c); auto; try lia. simpl.
    unfold in_range in H. apply andb_true_iff in H. destruct H as [_ H].
    apply Nat.leb_le in H. apply Nat.eqb_neq. lia.
Qed.

Lemma space_not_lower c : is_space c = true -> is_lower c = false.
Proof.
  intros H. apply space_not_word in H.
  destruct (is_lower c) eqn:E; [|reflexivity].
  apply lower_word in E. congruence.
Qed.

Lemma space_not_upper c : is_space c = true -> is_upper c = false.
Proof.
  intros H. apply space_not_word in H.
  destruct (is_upper c) eqn:E; [|reflexivity].
  apply upper_word in E. congruence.
Qed.

(** After a word character, [\b] holds exactly when no word character
    follows. *)
Lemma boundary_after_word c s :
  is_word c = true ->
  (word_boundary (Some c) (hd_error s) = true <-> stops is_word s).
Proof.
  intros H. unfold word_boundary. simpl. rewrite H.
  destruct s as [|x s]; simpl; [tauto|].
  destruct (is_word x); simpl; split; congruence.
Qed.

(** *** The greedy pieces *)

Lemma span_spec p s a b :
  span p s = (a, b) -> s = a ++ b /\ forallb p a = true /\ stops p b.
Proof.
  revert a b; induction s as [|c s IH]; intros a b H; simpl in H.
  - injection H as <- <-. simpl; auto.
  - destruct (p c) eqn:E.
    + destruct (span p s) as [a' b'] eqn:Es. injection H as <- <-.
      destruct (IH a' b' eq_refl) as (-> & Ha & Hb).
      simpl. rewrite E, Ha. auto.
    + injection H as <- <-. simpl. auto.
Qed.

Lemma span_exact p a b :
  forallb p a = true -> stops p b -> span p (a ++ b) = (a, b).
Proof.
  intros Ha Hb. induction a as [|c a IH]; simpl in *.
  - destruct b as [|x b]; [reflexivity|]. simpl in *. rewrite Hb. reflexivity.
  - apply andb_true_iff in Ha. destruct Ha as [Hc Ha].
    rewrite Hc, (IH Ha). reflexivity.
Qed.

Lemma cap_word_spec s w r :
  cap_word s = Some (w, r) <->
  capitalized_word w /\ s = w ++ r /\ stops is_lower r.
Proof.
  split.
  - destruct s as [|c s]; simpl; [discriminate|].
    destruct (is_upper c) eqn:Ec; [|discriminate].
    destruct (span is_lower s) as [ls rest] eqn:Es.
    apply span_spec in Es. destruct Es as (-> & Hl & Hr).
    destruct ls as [|x ls]; [discriminate|].
    intros H; injection H as <- <-.
    split; [|split; [reflexivity | exact Hr]].
    exists c, (x :: ls). repeat split; auto. discriminate.
  - intros ((c & ls & -> & Hc & Hn & Hl) & -> & Hr). simpl.
    rewrite Hc, (span_exact is_lower ls r Hl Hr).
    destruct ls; [congruence | reflexivity].
Qed.

Lemma ws_cap_word_spec s g r :
  ws_cap_word s = Some (g, r) <->
  exists ws w, g = ws ++ w /\ blank ws /\ capitalized_word w /\
               s = g ++ r /\ stops is_lower r.
Proof.
  unfold ws_cap_word. split.
  - destruct (span is_space s) as [ws r0] eqn:Es.
    apply span_spec in Es. destruct Es as (-> & Hws & _).
    destruct ws as [|x ws]; [discriminate|].
    destruct (cap_word r0) as [[w rest]|] eqn:Ew; [|discriminate].
    apply cap_word_spec in Ew. destruct Ew as (Hw & -> & Hr).
    intros H; injection H as <- <-.
    exists (x :: ws), w. repeat split; auto; try discriminate.
    simpl. rewrite <- app_assoc. reflexivity.
  - intros (ws & w & -> & [Hn Hws] & Hw & -> & Hr).
    rewrite <- app_assoc.
    assert (Hs : stops is_space (w ++ r)).
    { destruct Hw as (c & ls & -> & Hc & _). simpl.
      apply upper_not_space; assumption. }
    rewrite (span_exact is_space ws (w ++ r) Hws Hs).
    destruct ws as [|x ws]; [congruence|].
    assert (E : cap_word (w ++ r) = Some (w, r))
      by (apply cap_word_spec; auto).
    rewrite E. reflexivity.
Qed.

Lemma capitalized_word_last w d :
  capitalized_word w -> is_lower (last w d) = true.
Proof.
  intros (c & ls & -> & _ & Hn & Hl).
  destruct ls as [|x ls]; [congruence|].
  change (last (c :: x :: ls) d) with (last (x :: ls) d).
  assert (H : In (last (x :: ls) d) (x :: ls))
    by (destruct (exists_last (l:=x::ls)) as (l' & y & E);
        [discriminate | rewrite E, last_last; apply in_or_app; right; left; reflexivity]).
  rewrite forallb_forall in Hl. apply Hl. exact H.
Qed.

Lemma capitalized_word_head w :
  capitalized_word w -> exists c r, w = c :: r /\ is_upper c = true.
Proof. intros (c & ls & -> & Hc & _). eauto. Qed.

Lemma last_app_nonempty (a b : str) d :
  b <> [] -> last (a ++ b) d = last b d.
Proof.
  intros H. destruct (exists_last H) as (l' & y & ->).
  rewrite app_assoc, !last_last. reflexivity.
Qed.

Lemma last_app_default (a b : str) d : last (a ++ b) d = last b (last a d).
Proof.
  destruct b as [|x b]; [rewrite app_nil_r; reflexivity|].
  rewrite last_app_nonempty by discriminate.
  revert x; induction b as [|y b IH]; intros x; [reflexivity|].
  change (last (x :: y :: b) d) with (last (y :: b) d).
  change (last (x :: y :: b) (last a d)) with (last (y :: b) (last a d)).
  apply IH.
Qed.

Lemma stops_weaken (p q : ascii -> bool) s :
  (forall c, q c = true -> p c = true) -> stops p s -> stops q s.
Proof.
  intros H. destruct s as [|c s]; simpl; [auto|].
  intros E. destruct (q c) eqn:Eq; [|reflexivity].
  apply H in Eq. congruence.
Qed.

Lemma stops_word_lower s : stops is_word s -> stops is_lower s.
Proof. apply stops_weaken. exact lower_word. Qed.

Lemma blank_stops_word ws s : blank ws -> stops is_word (ws ++ s).
Proof.
  intros [Hn Hs]. destruct ws as [|c ws]; [congruence|]. simpl in *.
  apply andb_true_iff in Hs. apply space_not_word. tauto.
Qed.

Lemma cap_run_of_tail w m : capitalized_word w -> run_tail m -> cap_run (w ++ m).
Proof.
  intros Hw Hm. revert w Hw.
  induction Hm as [|ws w' m Hws Hw' Hm IH]; intros w Hw.
  - rewrite app_nil_r. apply run_one; assumption.
  - apply run_more; auto.
Qed.

Lemma run_tail_last m d :
  run_tail m -> is_lower d = true -> is_lower (last m d) = true.
Proof.
  intros Hm. revert d. induction Hm as [|ws w m Hws Hw Hm IH]; intros d Hd;
    [exact Hd|].
  rewrite !last_app_default. apply IH. apply capitalized_word_last, Hw.
Qed.

Lemma tail_sound fuel : forall c s m r,
  tail fuel c s = Some (m, r) ->
  s = m ++ r /\ run_tail m /\
  word_boundary (Some (last m c)) (hd_error r) = true.
Proof.
  assert (Hstop : forall c s m r,
    (if word_boundary (Some c) (hd_error s) then Some ([], s) else None)
      = Some (m, r) ->
    s = m ++ r /\ run_tail m /\
    word_boundary (Some (last m c)) (hd_error r) = true).
  { intros c s m r H.
    destruct (word_boundary (Some c) (hd_error s)) eqn:E; [|discriminate].
    injection H as <- <-. repeat split; [constructor | exact E]. }
  induction fuel as [|fuel IH]; intros c s m r H; simpl in H;
    [apply Hstop; exact H|].
  destruct (ws_cap_word s) as [[g rest]|] eqn:Eg; [|apply Hstop; exact H].
  destruct (tail fuel (last g c) rest) as [[m' r']|] eqn:Et;
    [|apply Hstop; exact H].
  injection H as <- <-.
  apply IH in Et. destruct Et as (-> & Hm' & Hb).
  apply ws_cap_word_spec in Eg.
  destruct Eg as (ws & w & -> & Hws & Hw & -> & _).
  split; [rewrite app_assoc; reflexivity|].
  split; [rewrite <- app_assoc; constructor; assumption|].
  rewrite last_app_default. exact Hb.
Qed.

Lemma tail_total fuel c s :
  word_boundary (Some c) (hd_error s) = true ->
  exists m r, tail fuel c s = Some (m, r).
Proof.
  intros H. destruct fuel as [|fuel]; simpl; rewrite H; [eauto|].
  destruct (ws_cap_word s) as [[g rest]|]; [|eauto].
  destruct (tail fuel (last g c) rest) as [[m' r']|]; eauto.
Qed.

Lemma tail_maximal fuel : forall c s m r,
  tail fuel c s = Some (m, r) -> length s <= fuel -> ~ extendable r.
Proof.
  assert (Hgo : forall n c s ws w r',
    s = ws ++ w ++ r' -> blank ws -> capitalized_word w -> stops is_word r' ->
    ws_cap_word s = Some (ws ++ w, r') /\
    exists m r, tail n (last (ws ++ w) c) r' = Some (m, r)).
  { intros n c s ws w r' -> Hws Hw Hr. split.
    - apply ws_cap_word_spec. exists ws, w.
      repeat split; try apply Hws; auto.
      + rewrite app_assoc; reflexivity.
      + apply stops_word_lower, Hr.
    - apply tail_total. apply boundary_after_word; [|exact Hr].
      rewrite last_app_default. apply lower_word, capitalized_word_last, Hw. }
  induction fuel as [|fuel IH]; intros c s m r H Hlen.
  - destruct s; [|simpl in Hlen; lia]. simpl in H.
    destruct (word_boundary _ _); [|discriminate]. injection H as <- <-.
    intros (ws & w & r' & E & [Hn _] & _).
    destruct ws; [congruence | discriminate].
  - simpl in H.
    destruct (ws_cap_word s) as [[g rest]|] eqn:Eg.
    + destruct (tail fuel (last g c) rest) as [[m' r']|] eqn:Et.
      * injection H as <- <-. apply (IH _ _ _ _ Et).
        apply ws_cap_word_spec in Eg.
        destruct Eg as (ws & w & -> & [Hn _] & _ & -> & _).
        destruct ws; [congruence|]. rewrite !length_app in Hlen.
        simpl in Hlen. lia.
      * destruct (word_boundary _ _); [|discriminate]. injection H as <- <-.
        intros (ws & w & r' & E & Hws & Hw & Hr).
        destruct (Hgo fuel c s ws w r' E Hws Hw Hr) as [E1 (m1 & r1 & E2)].
        rewrite Eg in E1. injection E1 as -> ->. congruence.
    + destruct (word_boundary _ _); [|discriminate]. injection H as <- <-.
      intros (ws & w & r' & E & Hws & Hw & Hr).
      destruct (Hgo fuel c s ws w r' E Hws Hw Hr) as [E1 _]. congruence.
Qed.

Lemma match_at_sound prev s m r :
  match_at prev s = Some (m, r) ->
  s = m ++ r /\ cap_run m /\ is_word_at prev = false /\
  stops is_word r /\ ~ extendable r.
Proof.
  unfold match_at.
  destruct (word_boundary prev (hd_error s)) eqn:Eb; [|discriminate].
  destruct (cap_word s) as [[w r0]|] eqn:Ew; [|discriminate].
  destruct (tail (length r0) (last w space) r0) as [[m' rest]|] eqn:Et;
    [|discriminate].
  intros H; injection H as <- <-.
  pose proof (tail_maximal _ _ _ _ _ Et (le_n _)) as Hmax.
  apply tail_sound in Et. destruct Et as (-> & Hm' & Hb).
  apply cap_word_spec in Ew. destruct Ew as (Hw & -> & _).
  split; [rewrite app_assoc; reflexivity|].
  split; [apply cap_run_of_tail; assumption|].
  split; [|split; [|exact Hmax]].
  - destruct (capitalized_word_head _ Hw) as (c & x & -> & Hc).
    unfold word_boundary in Eb. simpl in Eb.
    rewrite (upper_word _ Hc) in Eb.
    destruct (is_word_at prev); [discriminate | reflexivity].
  - apply (boundary_after_word (last m' (last w space))); [|exact Hb].
    apply lower_word, run_tail_last; [exact Hm'|].
    apply capitalized_word_last, Hw.
Qed.

Lemma match_at_complete prev w r :
  is_word_at prev = false -> capitalized_word w -> stops is_word r ->
  exists m' rest, match_at prev (w ++ r) = Some (w ++ m', rest).
Proof.
  intros Hp Hw Hr. unfold match_at.
  destruct (capitalized_word_head _ Hw) as (c & x & E & Hc).
  assert (Eb : word_boundary prev (hd_error (w ++ r)) = true).
  { rewrite E. unfold word_boundary. simpl.
    rewrite Hp, (upper_word _ Hc). reflexivity. }
  rewrite Eb.
  assert (Ew : cap_word (w ++ r) = Some (w, r)).
  { apply cap_word_spec. repeat split; auto. apply stops_word_lower, Hr. }
  rewrite Ew.
  destruct (tail_total (length r) (last w space) r) as (m' & rest & ->);
    [|eauto].
  apply boundary_after_word; [|exact Hr].
  apply lower_word, capitalized_word_last, Hw.
Qed.

(** *** The shape of a run *)

Lemma capitalized_word_nonempty w : capitalized_word w -> w <> [].
Proof. intros (c & ls & -> & _). discriminate. Qed.

Lemma cap_run_head m :
  cap_run m -> exists c x, m = c :: x /\ is_upper c = true.
Proof.
  intros H. destruct H as [w Hw | w ws r Hw _ _];
    destruct (capitalized_word_head _ Hw) as (c & x & -> & Hc); simpl; eauto.
Qed.

Lemma cap_run_stops_space m s : cap_run m -> stops is_space (m ++ s).
Proof.
  intros H. destruct (cap_run_head _ H) as (c & x & -> & Hc). simpl.
  apply upper_not_space, Hc.
Qed.

(** The first word of a run that is followed by a word boundary is itself
    followed by one. *)
Lemma cap_run_first_word e post :
  cap_run e -> stops is_word post ->
  exists w r, e ++ post = w ++ r /\ capitalized_word w /\ stops is_word r.
Proof.
  intros H Hp. destruct H as [w Hw | w ws r Hw Hws _].
  - exists w, post. auto.
  - exists w, (ws ++ r ++ post). rewrite <- !app_assoc.
    repeat split; auto. apply blank_stops_word, Hws.
Qed.

Lemma forallb_mid (p : ascii -> bool) a c b :
  forallb p (a ++ c :: b) = true -> p c = true.
Proof.
  rewrite forallb_app. simpl. intros H.
  apply andb_true_iff in H. destruct H as [_ H].
  apply andb_true_iff in H. tauto.
Qed.

Lemma app_split_at {A} (a b pre : list A) (c : A) (x : list A) :
  a ++ b = pre ++ c :: x ->
  (exists l, a = pre ++ c :: l /\ x = l ++ b) \/
  (exists l, pre = a ++ l /\ b = l ++ c :: x).
Proof.
  revert pre; induction a as [|y a IH]; intros pre E; simpl in E.
  - right. exists pre. auto.
  - destruct pre as [|z pre]; simpl in E; injection E as -> E.
    + left. exists a. auto.
    + destruct (IH pre E) as [(l & -> & ->) | (l & -> & ->)];
        [left | right]; exists l; auto.
Qed.

(** An upper-case letter occurs in a run only at the start of a word: the
    part of a run that starts at an upper-case letter is a run. *)
Lemma cap_run_upper_suffix m :
  cap_run m -> forall pre c x,
  m = pre ++ c :: x -> is_upper c = true -> cap_run (c :: x).
Proof.
  assert (Hword : forall w pre c x,
    capitalized_word w -> w = pre ++ c :: x -> is_upper c = true -> pre = []).
  { intros w pre c x (c0 & ls & -> & _ & _ & Hl) E Hc.
    destruct pre as [|y pre]; [reflexivity|].
    injection E as _ ->. apply forallb_mid in Hl.
    apply lower_not_upper in Hl. congruence. }
  induction 1 as [w Hw | w ws r Hw Hws Hr IH]; intros pre c x E Hc.
  - rewrite (Hword w pre c x Hw E Hc) in E. simpl in E. subst w.
    apply run_one, Hw.
  - apply app_split_at in E. destruct E as [(l & E1 & ->) | (l & -> & E2)].
    + pose proof (Hword w pre c l Hw E1 Hc) as ->. simpl in E1.
      rewrite E1 in Hw.
      change (c :: l ++ ws ++ r) with ((c :: l) ++ ws ++ r).
      apply run_more; assumption.
    + apply app_split_at in E2. destruct E2 as [(l2 & E3 & _) | (l2 & _ & E4)].
      * exfalso. destruct Hws as [_ Hs]. rewrite E3 in Hs.
        apply forallb_mid in Hs. apply space_not_upper in Hs. congruence.
      * apply (IH l2 c x E4 Hc).
Qed.

Lemma capitalized_word_unique w w' r r' :
  capitalized_word w -> capitalized_word w' ->
  stops is_lower r -> stops is_lower r' ->
  w ++ r = w' ++ r' -> w = w' /\ r = r'.
Proof.
  intros Hw Hw' Hr Hr' E.
  assert (E1 : cap_word (w ++ r) = Some (w, r))
    by (apply cap_word_spec; auto).
  assert (E2 : cap_word (w' ++ r') = Some (w', r'))
    by (apply cap_word_spec; auto).
  rewrite E, E2 in E1. injection E1 as -> ->. auto.
Qed.

Lemma blank_unique ws ws' r r' :
  blank ws -> blank ws' -> stops is_space r -> stops is_space r' ->
  ws ++ r = ws' ++ r' -> ws = ws' /\ r = r'.
Proof.
  intros [_ Hs] [_ Hs'] Hr Hr' E.
  pose proof (span_exact is_space ws r Hs Hr) as E1.
  pose proof (span_exact is_space ws' r' Hs' Hr') as E2.
  rewrite E, E2 in E1. injection E1 as -> ->. auto.
Qed.

(** *** What the scan records *)

Lemma scan_sound fuel : forall prev s e,
  In e (scan fuel prev s) ->
  exists pre post, s = pre ++ e ++ post /\ maximal_run prev pre e post.
Proof.
  induction fuel as [|fuel IH]; intros prev s e H; simpl in H; [contradiction|].
  destruct s as [|c s']; [contradiction|].
  destruct (match_at prev (c :: s')) as [[m rest]|] eqn:Em.
  - destruct (match_at_sound _ _ _ _ Em) as (Es & Hm & Hp & Hr & Hx).
    assert (Hne : m <> [])
      by (destruct (cap_run_head _ Hm) as (? & ? & -> & _); discriminate).
    destruct H as [<- | H].
    + exists [], rest. split; [exact Es|].
      repeat split; auto.
      intros (pre' & w & ws & E & _ & Hw & _).
      apply capitalized_word_nonempty in Hw.
      destruct pre'; [destruct w; [congruence | discriminate] | discriminate].
    + apply IH in H. destruct H as (pre & post & Er & He & Hb & Hpost & Hl & Hx').
      exists (m ++ pre), post.
      split; [rewrite Es, Er, <- app_assoc; reflexivity|].
      assert (Hbm : forall l, before prev (m ++ l) = before (Some (last m c)) l).
      { intros l. rewrite before_app, (before_last prev m c Hne). reflexivity. }
      repeat split; auto; [rewrite Hbm; exact Hb|].
      intros (pre' & w & ws & E & Hb' & Hw & Hws).
      destruct (capitalized_word_head _ Hw) as (c1 & x1 & Ew & Hc1).
      rewrite Ew in E. simpl in E.
      apply app_split_at in E.
      destruct E as [(l & E1 & E2) | (l & E1 & E2)].
      * (* the word starts inside the earlier match *)
        pose proof (cap_run_upper_suffix _ Hm pre' c1 l E1 Hc1) as Hsuf.
        assert (Eall : (c1 :: l) ++ rest = w ++ ws ++ e ++ post).
        { rewrite Er, Ew. simpl. f_equal. rewrite !app_assoc, E2. reflexivity. }
        destruct (cap_run_first_word e post He Hpost) as (we & re & Ee & Hwe & Hre).
        inversion Hsuf as [w1 Hw1 E0 | w1 ws1 l2 Hw1 Hws1 Hl2 E0].
        -- destruct (capitalized_word_unique (c1 :: l) w rest (ws ++ e ++ post))
             as [_ E3]; auto.
           { apply stops_word_lower, Hr. }
           { apply stops_word_lower, blank_stops_word, Hws. }
           apply Hx. exists ws, we, re. rewrite E3, Ee. auto.
        -- rewrite <- E0, <- !app_assoc in Eall.
           destruct (capitalized_word_unique w1 w (ws1 ++ l2 ++ rest)
                       (ws ++ e ++ post)) as [_ E3]; auto.
           { apply stops_word_lower, blank_stops_word, Hws1. }
           { apply stops_word_lower, blank_stops_word, Hws. }
           destruct (blank_unique ws1 ws (l2 ++ rest) (e ++ post))
             as [_ E4]; auto.
           { apply cap_run_stops_space, Hl2. }
           { apply cap_run_stops_space, He. }
           apply (f_equal (@length _)) in E4.
           rewrite Er, !length_app in E4.
           destruct (cap_run_head _ Hl2) as (? & ? & -> & _).
           simpl in E4. lia.
      * (* the word starts after the earlier match *)
        apply Hl. exists l, w, ws.
        split; [rewrite Ew; exact E2|].
        split; [rewrite <- Hbm, <- E1; exact Hb' | auto].
  - apply IH in H. destruct H as (pre & post & Er & He & Hb & Hpost & Hl & Hx').
    exists (c :: pre), post.
    split; [rewrite Er; reflexivity|].
    repeat split; auto.
    intros (pre' & w & ws & E & Hb' & Hw & Hws).
    destruct pre' as [|y pre'].
    + simpl in E, Hb'.
      destruct (match_at_complete prev w (ws ++ e ++ post))
        as (m' & rest & Em'); auto.
      { apply blank_stops_word, Hws. }
      rewrite Er in Em. change (c :: pre ++ e ++ post)
        with ((c :: pre) ++ e ++ post) in Em.
      rewrite E, <- !app_assoc in Em. congruence.
    + injection E as <- E. apply Hl. exists pre', w, ws. auto.
Qed.

(** Two runs read from the same place, each followed by a word boundary
    and extendable no further, are the same run. *)
Lemma cap_run_unique a : cap_run a -> forall b ra rb,
  cap_run b -> a ++ ra = b ++ rb ->
  stops is_word ra -> stops is_word rb ->
  ~ extendable ra -> ~ extendable rb -> a = b.
Proof.
  induction 1 as [w Hw | w ws r Hw Hws Hr IH]; intros b ra rb Hb E Sa Sb Xa Xb;
    destruct Hb as [w' Hw' | w' ws' r' Hw' Hws' Hr'].
  - apply (capitalized_word_unique w w' ra rb); auto using stops_word_lower.
  - exfalso. rewrite <- !app_assoc in E.
    destruct (capitalized_word_unique w w' ra (ws' ++ r' ++ rb))
      as [_ E1]; auto using stops_word_lower, blank_stops_word.
    destruct (cap_run_first_word r' rb Hr' Sb) as (w1 & r1 & E2 & Hw1 & Hr1).
    apply Xa. exists ws', w1, r1. rewrite E1, E2. auto.
  - exfalso. rewrite <- !app_assoc in E.
    destruct (capitalized_word_unique w w' (ws ++ r ++ ra) rb)
      as [_ E1]; auto using stops_word_lower, blank_stops_word.
    destruct (cap_run_first_word r ra Hr Sa) as (w1 & r1 & E2 & Hw1 & Hr1).
    apply Xb. exists ws, w1, r1. rewrite <- E1, E2. auto.
  - rewrite <- !app_assoc in E.
    destruct (capitalized_word_unique w w' (ws ++ r ++ ra) (ws' ++ r' ++ rb))
      as [-> E1]; auto using stops_word_lower, blank_stops_word.
    destruct (blank_unique ws ws' (r ++ ra) (r' ++ rb))
      as [-> E2]; auto using cap_run_stops_space.
    rewrite (IH r' ra rb Hr' E2 Sa Sb Xa Xb). reflexivity.
Qed.

(** An upper-case letter inside a run, not at its start, comes after a
    capitalized word of the run and white space. *)
Lemma cap_run_inner_word m : cap_run m -> forall pre c x prev,
  m = pre ++ c :: x -> is_upper c = true -> pre <> [] ->
  is_word_at prev = false -> extends_left prev pre.
Proof.
  assert (Hword : forall w pre c x,
    capitalized_word w -> w = pre ++ c :: x -> is_upper c = true -> pre = []).
  { intros w pre c x (c0 & ls & -> & _ & _ & Hl) E Hc.
    destruct pre as [|y pre]; [reflexivity|].
    injection E as _ ->. apply forallb_mid in Hl.
    apply lower_not_upper in Hl. congruence. }
  induction 1 as [w Hw | w ws r Hw Hws Hr IH]; intros pre c x prev E Hc Hne Hp.
  - apply (Hword w pre c x Hw) in E; [congruence | exact Hc].
  - apply app_split_at in E. destruct E as [(l & E1 & _) | (l & -> & E2)].
    + apply (Hword w pre c l Hw) in E1; [congruence | exact Hc].
    + apply app_split_at in E2. destruct E2 as [(l2 & E3 & _) | (l2 & -> & E4)].
      * exfalso. destruct Hws as [_ Hs]. rewrite E3 in Hs.
        apply forallb_mid in Hs. apply space_not_upper in Hs. congruence.
      * destruct l2 as [|y l2].
        -- exists [], w, ws. rewrite app_nil_r. auto.
        -- assert (Hsp : is_word_at (before prev (w ++ ws)) = false).
           { destruct Hws as [Hn Hs]. rewrite before_app.
             rewrite (before_last _ ws space Hn). simpl.
             apply space_not_word.
             destruct (exists_last Hn) as (l' & z & ->).
             rewrite last_last. apply (forallb_mid _ l' z []), Hs. }
           destruct (IH (y :: l2) c x (before prev (w ++ ws)) E4 Hc)
             as (pre' & w1 & ws1 & E5 & Hb & Hw1 & Hws1); auto; [discriminate|].
           exists (w ++ ws ++ pre'), w1, ws1.
           rewrite E5, <- !app_assoc. repeat split; try apply Hws1; auto.
           rewrite app_assoc, before_app. exact Hb.
Qed.

Lemma scan_complete fuel : forall prev s pre e post,
  s = pre ++ e ++ post -> maximal_run prev pre e post ->
  length s <= fuel -> In e (scan fuel prev s).
Proof.
  induction fuel as [|fuel IH];
    intros prev s pre e post Es (He & Hb & Hpost & Hl & Hx) Hlen.
  - destruct (cap_run_head _ He) as (c & x & -> & _).
    rewrite Es, !length_app in Hlen. simpl in Hlen. lia.
  - destruct (cap_run_head _ He) as (ce & xe & Ee & Hce).
    destruct s as [|c s'];
      [destruct pre; rewrite Ee in Es; discriminate|].
    simpl. destruct (match_at prev (c :: s')) as [[m rest]|] eqn:Em.
    + destruct (match_at_sound _ _ _ _ Em) as (Es' & Hm & Hp & Hr & Hxr).
      assert (Hne : m <> [])
        by (destruct (cap_run_head _ Hm) as (? & ? & -> & _); discriminate).
      destruct pre as [|y pre].
      * left. simpl in Es. rewrite Es in Es'.
        symmetry. apply (cap_run_unique e He m post rest); auto.
      * right. rewrite Es' in Es.
        assert (E := Es). rewrite Ee in E. simpl in E.
        change (y :: pre ++ ce :: xe ++ post)
          with ((y :: pre) ++ ce :: xe ++ post) in E.
        apply app_split_at in E. destruct E as [(l & E1 & _) | (l & E1 & E2)].
        -- exfalso. apply Hl.
           apply (cap_run_inner_word m Hm (y :: pre) ce l prev); auto.
           discriminate.
        -- assert (Hbm : forall k,
             before prev (m ++ k) = before (Some (last m c)) k).
           { intros k. rewrite before_app, (before_last prev m c Hne).
             reflexivity. }
           apply (IH _ _ l e post).
           ++ rewrite E2, Ee. reflexivity.
           ++ repeat split; auto.
              ** rewrite <- Hbm, <- E1. exact Hb.
              ** intros (pre' & w & ws & E3 & Hb' & Hw & Hws).
                 apply Hl. exists (m ++ pre'), w, ws.
                 rewrite E1, E3, <- app_assoc, Hbm. auto.
           ++ rewrite Es' in Hlen. rewrite length_app in Hlen.
              destruct m; [congruence|]. simpl in Hlen. lia.
    + destruct pre as [|y pre].
      * exfalso. simpl in Es, Hb.
        destruct (cap_run_first_word e post He Hpost)
          as (w & r & E & Hw & Hr).
        destruct (match_at_complete prev w r Hb Hw Hr) as (m' & rest & Em').
        rewrite <- E, <- Es in Em'. congruence.
      * simpl in Es. injection Es as -> Es.
        apply (IH _ _ pre e post Es).
        ++ repeat split; auto.
           intros (pre' & w & ws & E3 & Hb' & Hw & Hws).
           apply Hl. exists (y :: pre'), w, ws. rewrite E3. auto.
        ++ simpl in Hlen. lia.
Qed.

(** [re.findall] records exactly the maximal runs of capitalized words of
    the text. *)
Lemma findall_maximal_runs text e :
  In e (findall text) <->
  exists pre post, text = pre ++ e ++ post /\ maximal_run None pre e post.
Proof.
  unfold findall. split.
  - apply scan_sound.
  - intros (pre & post & E & H). apply (scan_complete _ _ _ pre e post E H).
    apply le_n.
Qed.

Lemma findall_upper text e :
  In e (findall text) -> exists c x, e = c :: x /\ is_upper c = true.
Proof.
  intros H. apply findall_maximal_runs in H.
  destruct H as (pre & post & _ & He & _). apply cap_run_head, He.
Qed.

End EntityFacts.

(** ** The engine on the entity pattern *)

Module PatternFacts.
Import Regex EntityRe EntitySpec EntityFacts.

Lemma star_loop_S step k n prev s :
  star_loop step k (S n) prev s =
  match step prev s
          (fun prev' s' =>
             if length s' <? length s then star_loop step k n prev' s'
             else None)
  with
  | Some rest => Some rest
  | None => k prev s
  end.
Proof. reflexivity. Qed.

Lemma run_class p prev c s k :
  run (Class p) prev (c :: s) k = if p c then k (Some c) s else None.
Proof. reflexivity. Qed.

Section Greedy.

Variable p : ascii -> bool.
Variable Q : option ascii -> Prop.
Variable k : cont.
Hypothesis Q_class : forall c, p c = true -> Q (Some c).
Hypothesis k_rejects :
  forall prev c s, Q prev -> p c = true -> k prev (c :: s) = None.

Lemma star_class n : forall prev s,
  Q prev -> length (fst (span p s)) <= n ->
  star_loop (run (Class p)) k n prev s
  = k (before prev (fst (span p s))) (snd (span p s)).
Proof.
  induction n as [|n IH]; intros prev s HQ Hn.
  - destruct s as [|c s]; [reflexivity|]. simpl in *.
    destruct (p c) eqn:E; [|reflexivity].
    destruct (span p s); simpl in Hn; lia.
  - destruct s as [|c s]; [reflexivity|].
    rewrite star_loop_S, run_class. cbn [span].
    destruct (p c) eqn:E; [|reflexivity].
    assert (Hlt : (length s <? length (c :: s)) = true)
      by (apply Nat.ltb_lt; simpl; lia).
    rewrite Hlt.
    assert (Hn' : length (fst (span p s)) <= n).
    { simpl in Hn. rewrite E in Hn. destruct (span p s); simpl in *; lia. }
    rewrite (IH (Some c) s (Q_class c E) Hn').
    destruct (span p s) as [a b]; simpl.
    destruct (k (before (Some c) a) b); [reflexivity|].
    apply k_rejects; assumption.
Qed.

Lemma plus_class prev s :
  run (Plus (Class p)) prev s k =
  match span p s with
  | ([], _) => None
  | (a, b) => k (before prev a) b
  end.
Proof.
  destruct s as [|c s]; [reflexivity|].
  change (run (Plus (Class p)) prev (c :: s) k)
    with (if p c then star_loop (run (Class p)) k (length s) (Some c) s
          else None).
  cbn [span]. destruct (p c) eqn:E; [|reflexivity].
  rewrite (star_class (length s) (Some c) s (Q_class c E)).
  - destruct (span p s) as [a b]; reflexivity.
  - destruct (span p s) as [a b] eqn:Es. apply span_spec in Es.
    destruct Es as (-> & _). simpl. rewrite length_app. lia.
Qed.

End Greedy.

Lemma cap_word_re_run k prev s :
  rejects_lower k ->
  run cap_word_re prev s k =
  match cap_word s with
  | Some (w, r) => k (before prev w) r
  | None => None
  end.
Proof.
  intros Hk. destruct s as [|c s]; [reflexivity|].
  change (run cap_word_re prev (c :: s) k)
    with (if is_upper c then run (Plus (Class is_lower)) (Some c) s k
          else None).
  simpl cap_word. destruct (is_upper c); [|reflexivity].
  rewrite (plus_class is_lower word_before k); [| |exact Hk].
  - destruct (span is_lower s) as [[|x a] b]; reflexivity.
  - intros x Hx. apply lower_word, Hx.
Qed.

Lemma group_re_run k prev s :
  rejects_lower k ->
  run group_re prev s k =
  match ws_cap_word s with
  | Some (g, r) => k (before prev g) r
  | None => None
  end.
Proof.
  intros Hk.
  change (run group_re prev s k)
    with (run (Plus (Class is_space)) prev s
            (fun prev' s' => run cap_word_re prev' s' k)).
  rewrite (plus_class is_space (fun _ => True)); [|auto|].
  - unfold ws_cap_word. destruct (span is_space s) as [[|x ws] r];
      [reflexivity|].
    rewrite (cap_word_re_run k _ r Hk).
    destruct (cap_word r) as [[w rest]|]; [|reflexivity].
    rewrite before_app. reflexivity.
  - intros prev' c s' _ Hc. simpl.
    rewrite (space_not_upper _ Hc). reflexivity.
Qed.

Lemma tail_lower_none n c x s :
  is_word c = true -> is_lower x = true -> tail n c (x :: s) = None.
Proof.
  intros Hc Hx.
  assert (Hs : (if word_boundary (Some c) (hd_error (x :: s))
                then Some ([], x :: s) else None) = @None (str * str)).
  { unfold word_boundary. simpl. rewrite Hc, (lower_word _ Hx). reflexivity. }
  assert (Hg : ws_cap_word (x :: s) = None).
  { unfold ws_cap_word. simpl.
    destruct (is_space x) eqn:E; [|reflexivity].
    apply space_not_lower in E. congruence. }
  destruct n; simpl; rewrite ?Hg; exact Hs.
Qed.

Lemma star_group_run n : forall c s,
  is_word c = true ->
  star_loop (run group_re) closing n (Some c) s
  = option_map snd (tail n c s).
Proof.
  induction n as [|n IH]; intros c s Hc.
  - simpl. unfold closing. destruct (word_boundary _ _); reflexivity.
  - rewrite star_loop_S. cbn [tail].
    rewrite group_re_run.
    + destruct (ws_cap_word s) as [[g rest]|] eqn:Eg.
      * apply ws_cap_word_spec in Eg.
        destruct Eg as (ws & w & -> & [Hn _] & Hw & -> & _).
        assert (Hlen : (length rest <? length ((ws ++ w) ++ rest)) = true).
        { apply Nat.ltb_lt. rewrite !length_app.
          destruct ws; [congruence | simpl; lia]. }
        rewrite Hlen.
        assert (Hb : before (Some c) (ws ++ w) = Some (last (ws ++ w) c)).
        { apply before_last. destruct ws; [congruence | discriminate]. }
        rewrite Hb, IH.
        -- destruct (tail n (last (ws ++ w) c) rest) as [[m r']|];
             [reflexivity|].
           unfold closing. destruct (word_boundary _ _); reflexivity.
        -- rewrite last_app_default.
           apply lower_word, capitalized_word_last, Hw.
      * unfold closing. destruct (word_boundary _ _); reflexivity.
    + intros prev x s' Hp Hx.
      destruct (length (x :: s') <? length s); [|reflexivity].
      destruct prev as [c'|]; [|discriminate Hp].
      rewrite IH by exact Hp.
      rewrite tail_lower_none; [reflexivity | exact Hp | exact Hx].
Qed.

Lemma entity_pattern_run prev s :
  run entity_pattern prev s accept = option_map snd (match_at prev s).
Proof.
  unfold match_at.
  change (run entity_pattern prev s accept)
    with (if word_boundary prev (hd_error s)
          then run cap_word_re prev s
                 (fun p1 s1 =>
                    star_loop (run group_re) closing (length s1) p1 s1)
          else None).
  destruct (word_boundary prev (hd_error s)); [|reflexivity].
  rewrite cap_word_re_run.
  - destruct (cap_word s) as [[w r]|] eqn:Ew; [|reflexivity].
    apply cap_word_spec in Ew. destruct Ew as (Hw & _ & _).
    rewrite (before_last prev w space (capitalized_word_nonempty _ Hw)).
    rewrite star_group_run
      by (apply lower_word, capitalized_word_last, Hw).
    destruct (tail (length r) (last w space) r) as [[m rest]|]; reflexivity.
  - intros p1 x s1 Hp Hx. destruct p1 as [c|]; [|discriminate Hp].
    rewrite star_group_run by exact Hp.
    rewrite tail_lower_none; [reflexivity | exact Hp | exact Hx].
Qed.

Lemma scan_S r fuel prev s :
  Regex.scan r (S fuel) prev s =
  match run r prev s accept with
  | Some rest =>
      match firstn (length s - length rest) s, s with
      | [], [] => [[]]
      | [], c :: s' => [] :: Regex.scan r fuel (Some c) s'
      | m, _ => m :: Regex.scan r fuel (before prev m) rest
      end
  | None =>
      match s with
      | [] => []
      | c :: s' => Regex.scan r fuel (Some c) s'
      end
  end.
Proof. reflexivity. Qed.

Lemma entity_pattern_scan fuel : forall prev s,
  length s <= fuel ->
  Regex.scan entity_pattern (S fuel) prev s = EntityRe.scan fuel prev s.
Proof.
  induction fuel as [|fuel IH]; intros prev s Hlen.
  - destruct s; [|simpl in Hlen; lia].
    rewrite scan_S, entity_pattern_run.
    unfold match_at. cbn [cap_word].
    destruct (word_boundary _ _); reflexivity.
  - rewrite scan_S, entity_pattern_run. cbn [EntityRe.scan].
    destruct s as [|c s'].
    { unfold match_at. cbn [cap_word].
      destruct (word_boundary _ _); reflexivity. }
    destruct (match_at prev (c :: s')) as [[m rest]|] eqn:Em; cbn [option_map snd].
    + destruct (match_at_sound _ _ _ _ Em) as (Es & Hm & _).
      destruct (cap_run_head _ Hm) as (x & y & Ex & _).
      assert (Ef : firstn (length (c :: s') - length rest) (c :: s') = m).
      { rewrite Es, length_app, Nat.add_sub, firstn_app, Nat.sub_diag.
        rewrite firstn_all, firstn_0, app_nil_r. reflexivity. }
      rewrite Ef. subst m. cbv iota.
      rewrite (before_last prev (x :: y) c) by discriminate.
      rewrite IH; [reflexivity|].
      apply (f_equal (@length _)) in Es. rewrite length_app in Es.
      simpl in Es, Hlen. lia.
    + rewrite IH; [reflexivity | simpl in Hlen; lia].
Qed.

Lemma named_entities_eq text : named_entities text = EntityRe.findall text.
Proof. apply entity_pattern_scan, le_n. Qed.

(** [named_entities] records exactly the maximal runs of capitalized
    words of the text. *)
Lemma named_entities_maximal_runs text e :
  In e (named_entities text) <->
  exists pre post, text = pre ++ e ++ post /\ maximal_run None pre e post.
Proof. rewrite named_entities_eq. apply findall_maximal_runs. Qed.

Lemma named_entities_upper text e :
  In e (named_entities text) -> exists c x, e = c :: x /\ is_upper c = true.
Proof. rewrite named_entities_eq. apply findall_upper. Qed.

End PatternFacts.

(** ** The query builder *)

Module QueryFacts.
Import Regex EntityRe EntitySpec QuerySpec EntityFacts.

(** *** Substrings and joins *)

Lemma is_prefix_app x r : is_prefix x (x ++ r) = true.
Proof.
  induction x as [|c x IH]; simpl; [reflexivity|].
  rewrite Ascii.eqb_refl, IH. reflexivity.
Qed.

Lemma contains_app_r a b x : contains b x = true -> contains (a ++ b) x = true.
Proof.
  intros H. induction a as [|c a IH]; simpl; [exact H|].
  rewrite IH. apply orb_true_r.
Qed.

Lemma contains_prefix x r : contains (x ++ r) x = true.
Proof.
  destruct (x ++ r) eqn:E; simpl; rewrite <- E, is_prefix_app; reflexivity.
Qed.

Lemma join_cons x y l : join (x :: y :: l) = x ++ space :: join (y :: l).
Proof. reflexivity. Qed.

Lemma join_contains l x : In x l -> contains (join l) x = true.
Proof.
  induction l as [|y l IH]; intros H; [contradiction|].
  destruct l as [|z l].
  - destruct H as [-> | []]. simpl join.
    rewrite <- (app_nil_r x) at 1. apply contains_prefix.
  - rewrite join_cons. destruct H as [-> | H].
    + apply contains_prefix.
    + change (y ++ space :: join (z :: l))
        with (y ++ [space] ++ join (z :: l)).
      rewrite app_assoc. apply contains_app_r, IH, H.
Qed.

(** *** Lower case *)

Lemma lower_char_not_upper c : is_upper (lower_char c) = false.
Proof.
  destruct c as [[] [] [] [] [] [] [] []]; reflexivity.
Qed.

Lemma lower_no_upper s : no_upper s -> lower s = s.
Proof.
  unfold no_upper, lower. induction s as [|c s IH]; simpl; [reflexivity|].
  intros H. apply andb_true_iff in H. destruct H as [Hc Hs].
  rewrite (IH Hs). unfold lower_char.
  destruct (is_upper c); [discriminate | reflexivity].
Qed.

Lemma split_from_chars s : forall cur w c,
  In w (split_from cur s) -> In c w -> In c cur \/ In c s.
Proof.
  induction s as [|x s IH]; intros cur w c Hw Hc; simpl in Hw.
  - destruct cur; [contradiction|]. destruct Hw as [<- | []]. auto.
  - destruct (is_space x).
    + destruct cur as [|y cur].
      * destruct (IH _ _ _ Hw Hc) as [[] | H]. right; right; exact H.
      * destruct Hw as [<- | Hw]; [auto|].
        destruct (IH _ _ _ Hw Hc) as [[] | H]. right; right; exact H.
    + destruct (IH _ _ _ Hw Hc) as [H | H]; [|right; right; exact H].
      apply in_app_or in H. destruct H as [H | [<- | []]]; [auto|].
      right; left; reflexivity.
Qed.

(** A key term is in lower case and is not a stop word. *)
Lemma extract_key_terms_spec text w :
  In w (extract_key_terms text) ->
  no_upper w /\ mem w STOP_WORDS = false.
Proof.
  unfold extract_key_terms. intros H. apply filter_In in H.
  destruct H as [Hw Hf]. apply andb_true_iff in Hf. destruct Hf as [Hs _].
  split; [|destruct (mem w STOP_WORDS); [discriminate | reflexivity]].
  unfold no_upper. apply forallb_forall. intros c Hc.
  destruct (split_from_chars _ _ _ _ Hw Hc) as [[] | H].
  unfold sub_non_word_space, lower in H. rewrite map_map in H.
  apply in_map_iff in H. destruct H as (c0 & <- & _).
  destruct (_ || _); [rewrite lower_char_not_upper|]; reflexivity.
Qed.

(** *** The loop over the tags *)

Lemma tag_loop_cons max_terms terms tag tags :
  tag_loop max_terms terms (tag :: tags) =
  if negb (mem (lower tag) GENERIC_TAGS)
     && negb (mem (lower tag) (map lower terms))
  then if (max_terms <=? Z.of_nat (length (terms ++ [tag])))%Z
       then terms ++ [tag]
       else tag_loop max_terms (terms ++ [tag]) tags
  else tag_loop max_terms terms tags.
Proof. reflexivity. Qed.

Lemma entity_loop_cons max_terms terms entity entities :
  entity_loop max_terms terms (entity :: entities) =
  if negb (mem (lower entity) STOP_WORDS) && negb (mem entity terms)
  then if (max_terms <=? Z.of_nat (length (quoted entity :: terms)))%Z
       then quoted entity :: terms
       else entity_loop max_terms (quoted entity :: terms) entities
  else entity_loop max_terms terms entities.
Proof. reflexivity. Qed.

Lemma tag_loop_elems max_terms terms0 : forall tags terms x,
  incl terms0 terms ->
  In x (tag_loop max_terms terms tags) ->
  In x terms \/ (In x tags /\ ~ In (lower x) (map lower terms0)).
Proof.
  induction tags as [|tag tags IH]; intros terms x Hi H; [simpl in H; auto|].
  rewrite tag_loop_cons in H.
  destruct (negb (mem (lower tag) GENERIC_TAGS)
            && negb (mem (lower tag) (map lower terms))) eqn:E.
  - apply andb_true_iff in E. destruct E as [_ E].
    apply negb_true_iff, mem_false in E.
    assert (Hnew : ~ In (lower tag) (map lower terms0)).
    { intros Hin. apply E. apply in_map_iff in Hin.
      destruct Hin as (y & Ey & Hy). apply in_map_iff. exists y.
      split; [exact Ey | apply Hi, Hy]. }
    assert (Hend : In x (terms ++ [tag]) ->
      In x terms \/ (In x (tag :: tags) /\ ~ In (lower x) (map lower terms0))).
    { intros Hx. apply in_app_or in Hx. destruct Hx as [Hx | [<- | []]];
        [auto | right; split; [left; reflexivity | exact Hnew]]. }
    destruct (max_terms <=? _)%Z; [apply Hend; exact H|].
    apply IH in H; [|apply incl_appl, Hi].
    destruct H as [H | [H1 H2]]; [apply Hend; exact H|].
    right; split; [right; exact H1 | exact H2].
  - apply IH in H; [|exact Hi]. destruct H as [H | [H1 H2]]; [auto|].
    right; split; [right; exact H1 | exact H2].
Qed.

(** *** The loop over the entities *)

Lemma quoted_not_entity e x : starts_upper e -> str_eqb e (quoted x) = false.
Proof.
  intros (c & r & -> & Hc). unfold quoted. simpl.
  destruct (Ascii.eqb c dquote) eqn:E; [|reflexivity].
  apply Ascii.eqb_eq in E. subst c. discriminate.
Qed.

Lemma entity_loop_closed max_terms terms0 : forall entities terms,
  Forall starts_upper entities ->
  (forall e, In e entities -> mem e terms = mem e terms0) ->
  entity_loop max_terms terms entities =
  rev (map quoted (firstn (room max_terms terms)
                          (filter (passes terms0) entities))) ++ terms.
Proof.
  induction entities as [|e es IH]; intros terms Hu Hm.
  - simpl. rewrite firstn_nil. reflexivity.
  - inversion Hu as [|? ? He Hes]; subst.
    rewrite entity_loop_cons.
    change (filter (passes terms0) (e :: es))
      with (if passes terms0 e then e :: filter (passes terms0) es
            else filter (passes terms0) es).
    unfold passes at 1. rewrite <- (Hm e (or_introl eq_refl)).
    destruct (negb (mem (lower e) STOP_WORDS) && negb (mem e terms)) eqn:E.
    + assert (Hm' : forall e', In e' es ->
                mem e' (quoted e :: terms) = mem e' terms0).
      { intros e' H'. unfold mem. simpl existsb. fold (mem e' terms).
        rewrite quoted_not_entity.
        - apply Hm. right; exact H'.
        - rewrite Forall_forall in Hes. apply Hes, H'. }
      destruct (max_terms <=? Z.of_nat (length (quoted e :: terms)))%Z eqn:El.
      * apply Z.leb_le in El. simpl length in El.
        replace (room max_terms terms) with 1 by (unfold room; lia).
        reflexivity.
      * apply Z.leb_gt in El. simpl length in El.
        rewrite (IH _ Hes Hm').
        replace (room max_terms terms)
          with (S (room max_terms (quoted e :: terms)))
          by (unfold room; simpl length; lia).
        simpl. rewrite <- app_assoc. reflexivity.
    + apply IH; [exact Hes|]. intros e' H'. apply Hm. right; exact H'.
Qed.

Lemma occurrences_app x a b :
  occurrences x (a ++ b) = occurrences x a + occurrences x b.
Proof. unfold occurrences. rewrite filter_app, length_app. reflexivity. Qed.

Lemma occurrences_rev x l : occurrences x (rev l) = occurrences x l.
Proof.
  unfold occurrences. induction l as [|y l IH]; simpl; [reflexivity|].
  rewrite filter_app, length_app, IH. simpl.
  destruct (str_eqb x y); simpl; lia.
Qed.

Lemma str_eqb_quoted x y : str_eqb (quoted x) (quoted y) = str_eqb x y.
Proof.
  destruct (str_eqb x y) eqn:E.
  - apply str_eqb_eq in E. subst. apply str_eqb_eq. reflexivity.
  - destruct (str_eqb (quoted x) (quoted y)) eqn:E'; [|reflexivity].
    apply str_eqb_eq in E'. unfold quoted in E'. injection E' as E'.
    apply app_inj_tail in E'. destruct E' as [-> _].
    rewrite <- E. symmetry. apply str_eqb_eq. reflexivity.
Qed.

Lemma occurrences_quoted x l :
  occurrences (quoted x) (map quoted l) = occurrences x l.
Proof.
  unfold occurrences. induction l as [|y l IH]; [reflexivity|].
  cbn [map filter]. rewrite str_eqb_quoted.
  destruct (str_eqb x y); cbn [length]; rewrite IH; reflexivity.
Qed.

End QueryFacts.

Import Regex EntityRe EntitySpec QuerySpec EntityFacts PatternFacts QueryFacts.

Lemma query_terms_closed event max_terms :
  let terms0 := tag_loop max_terms
                  (firstn 5 (extract_key_terms (ev_title event)))
                  (ev_tags event) in
  query_terms_of event max_terms =
  rev (map quoted (firstn (room max_terms terms0)
                     (filter (passes terms0) (named_entities (ev_title event)))))
  ++ terms0.
Proof.
  intros terms0. unfold query_terms_of. fold terms0.
  apply entity_loop_closed; [|reflexivity].
  apply Forall_forall. intros e He. apply (named_entities_upper _ _ He).
Qed.

Lemma slice_to_head {A} (n : Z) (x : A) (l : list A) :
  (1 <= n)%Z -> In x (slice_to n (x :: l)).
Proof.
  intros H. unfold slice_to.
  destruct (0 <=? n)%Z eqn:E; [|apply Z.leb_gt in E; lia].
  destruct (Z.to_nat n) eqn:En; [lia|]. left; reflexivity.
Qed.

Lemma slice_to_second {A} (n : Z) (x y : A) (l : list A) :
  (2 <= n)%Z -> In y (slice_to n (x :: y :: l)).
Proof.
  intros H. unfold slice_to.
  destruct (0 <=? n)%Z eqn:E; [|apply Z.leb_gt in E; lia].
  destruct (Z.to_nat n) as [|[|k]] eqn:En; [lia | lia |].
  right; left; reflexivity.
Qed.

(** The query of an event titled "Elon Musk buys Twitter" has the quoted
    entity, if no tag is the text of the entity itself. *)
Lemma elon_musk_quoted event max_terms :
  ev_title event = lit "Elon Musk buys Twitter" ->
  ~ In (lit "Elon Musk") (ev_tags event) ->
  (1 <= max_terms)%Z ->
  contains (build_news_query event max_terms) (quoted (lit "Elon Musk")) = true.
Proof.
  intros Ht Hn Hm. unfold build_news_query. apply join_contains.
  rewrite query_terms_closed, Ht.
  assert (Ef : named_entities (lit "Elon Musk buys Twitter")
               = [lit "Elon Musk"; lit "Twitter"]) by (vm_compute; reflexivity).
  assert (Ek : firstn 5 (extract_key_terms (lit "Elon Musk buys Twitter"))
               = [lit "elon"; lit "musk"; lit "buys"; lit "twitter"])
    by (vm_compute; reflexivity).
  rewrite Ef, Ek.
  set (terms0 := tag_loop max_terms _ (ev_tags event)).
  assert (Hp : passes terms0 (lit "Elon Musk") = true).
  { unfold passes. apply andb_true_iff. split; [vm_compute; reflexivity|].
    apply negb_true_iff, mem_false. intros H.
    apply (tag_loop_elems max_terms
             [lit "elon"; lit "musk"; lit "buys"; lit "twitter"]) in H;
      [|apply incl_refl].
    destruct H as [H | [H _]]; [|exact (Hn H)].
    vm_compute in H. repeat (destruct H as [H | H]; [discriminate|]).
    exact H. }
  cbn [filter]. rewrite Hp.
  assert (Hr : exists k, room max_terms terms0 = S k /\
                 (k = 0 \/ (2 <= max_terms)%Z)).
  { unfold room. exists (Nat.pred (Z.to_nat (Z.max 1
        (max_terms - Z.of_nat (length terms0))))). lia. }
  destruct Hr as (k & -> & Hk).
  cbn [firstn map rev]. rewrite <- app_assoc. cbn [app].
  destruct (passes terms0 (lit "Twitter")), k as [|k];
    cbn [firstn]; rewrite ?firstn_nil; cbn [map rev app];
    try (apply slice_to_head; exact Hm).
  apply slice_to_second. destruct Hk as [Hk | Hk]; [discriminate | exact Hk].
Qed.

(** C7, as the code has it.  [build_news_query] detects the named
    entities of the title as the maximal runs of consecutive capitalized
    words (a capitalized word being one upper-case letter followed by
    lower-case letters, between word boundaries).  Each detected entity
    whose lower-cased form is not a stop word and which is not in the
    term list is inserted at the front of the list between quote markers,
    and the loop stops after the insertion that brings the number of
    terms to [max_terms]: the list is the reversed, quoted first
    [room max_terms terms0] passing entities followed by the title and tag
    terms [terms0].  For the title "Elon Musk buys Twitter", a
    [max_terms] of at least 1 and tags none of which is the text
    Elon Musk itself, the query contains the quoted Elon Musk. *)
Theorem build_news_query_entities (event : Event) (max_terms : Z) :
  let entities := named_entities (ev_title event) in
  let terms0 := tag_loop max_terms
                  (firstn 5 (extract_key_terms (ev_title event)))
                  (ev_tags event) in
  (forall e, In e entities <->
     exists pre post, ev_title event = pre ++ e ++ post /\
                      maximal_run None pre e post) /\
  (forall terms e rest,
     entity_loop max_terms terms (e :: rest) =
     if negb (mem (lower e) STOP_WORDS) && negb (mem e terms)
     then if (max_terms <=? Z.of_nat (length (quoted e :: terms)))%Z
          then quoted e :: terms
          else entity_loop max_terms (quoted e :: terms) rest
     else entity_loop max_terms terms rest) /\
  query_terms_of event max_terms
    = rev (map quoted (firstn (room max_terms terms0)
                         (filter (passes terms0) entities))) ++ terms0 /\
  build_news_query event max_terms
    = join (slice_to max_terms (query_terms_of event max_terms)) /\
  (ev_title event = lit "Elon Musk buys Twitter" ->
   ~ In (lit "Elon Musk") (ev_tags event) ->
   (1 <= max_terms)%Z ->
   contains (build_news_query event max_terms) (quoted (lit "Elon Musk"))
     = true).
Proof.
  intros entities terms0. split; [|split; [|split; [|split]]].
  - intros e. apply named_entities_maximal_runs.
  - intros terms e rest. apply entity_loop_cons.
  - apply query_terms_closed.
  - reflexivity.
  - apply elon_musk_quoted.
Qed.

Lemma build_news_query_entities_witness :
  contains (build_news_query elon_event 8) (quoted (lit "Elon Musk")) = true.
Proof.
  apply (proj2 (proj2 (proj2 (proj2 (build_news_query_entities elon_event 8))))).
  - reflexivity.
  - simpl. tauto.
  - lia.
Defined.

(** With the tag Elon Musk, the entity is found in the term list and is
    not inserted: the query has the tag, not the quoted token. *)
Lemma tagged_elon_query_unquoted :
  ev_title tagged_elon_event = lit "Elon Musk buys Twitter" /\
  show (build_news_query tagged_elon_event 8)
    = show (quoted (lit "Twitter")
            ++ lit " elon musk buys twitter Elon Musk") /\
  contains (build_news_query tagged_elon_event 8) (quoted (lit "Elon Musk"))
    = false.
Proof. repeat split; vm_compute; reflexivity. Qed.

(** *** The duplicate check on entities *)

Lemma tag_loop_keeps max_terms x : forall tags terms,
  In x terms -> In x (tag_loop max_terms terms tags).
Proof.
  induction tags as [|tag tags IH]; intros terms H; [exact H|].
  rewrite tag_loop_cons.
  destruct (_ && _); [|apply IH, H].
  destruct (_ <=? _)%Z; [|apply IH]; apply in_or_app; left; exact H.
Qed.

(** An entity whose lower-cased form is one of the title terms is found
    neither among the title terms, nor among the tags that were added, nor
    among quoted entities. *)
Lemma entity_of_title_term_passes event max_terms e :
  let title_terms := firstn 5 (extract_key_terms (ev_title event)) in
  let terms0 := tag_loop max_terms title_terms (ev_tags event) in
  In e (named_entities (ev_title event)) -> In (lower e) title_terms ->
  ~ In e terms0 /\ (forall x, e <> quoted x) /\ passes terms0 e = true.
Proof.
  intros title_terms terms0 He Hl.
  pose proof (named_entities_upper _ _ He) as Hu.
  assert (Hk : forall w, In w title_terms ->
                 no_upper w /\ mem w STOP_WORDS = false).
  { intros w Hw. apply In_firstn in Hw.
    apply (extract_key_terms_spec _ _ Hw). }
  assert (H0 : ~ In e terms0).
  { intros H.
    apply (tag_loop_elems max_terms title_terms) in H; [|apply incl_refl].
    destruct H as [H | [_ H]].
    - destruct (Hk e H) as [Hn _]. destruct Hu as (c & x & -> & Hc).
      unfold no_upper in Hn. simpl in Hn. rewrite Hc in Hn. discriminate.
    - apply H. destruct (Hk _ Hl) as [Hn _].
      rewrite <- (lower_no_upper _ Hn) at 1. apply in_map, Hl. }
  split; [exact H0|]. split.
  - intros x E. pose proof (quoted_not_entity e x Hu) as Hq.
    rewrite <- E in Hq. rewrite (proj2 (str_eqb_eq e e) eq_refl) in Hq.
    discriminate.
  - unfold passes. destruct (Hk _ Hl) as [_ ->].
    apply mem_false in H0. rewrite H0. reflexivity.
Qed.

(** C10, as the code has it.  The duplicate check compares the entity as
    detected (original case, no quote markers) with the collected terms,
    which are lower-cased title terms, tags that were added, and quoted
    entities.  A detected entity whose lower-cased form is one of the
    (first five) title terms is therefore never rejected by the check; it
    is inserted, quoted, unless the loop has stopped at [max_terms]
    before reaching it: the entities inserted are the first
    [room max_terms terms0] entities that pass.  For an inserted entity of
    that kind the term list has both the lower-case term and the quoted
    entity, and so has the query when the term list is not longer than
    [max_terms]; when the title and tag terms and all passing entities
    together number at most [max_terms], every passing entity is
    inserted.  An entity inserted twice is twice in the term list. *)
Theorem entity_duplicate_check (event : Event) (max_terms : Z) :
  let title_terms := firstn 5 (extract_key_terms (ev_title event)) in
  let terms0 := tag_loop max_terms title_terms (ev_tags event) in
  let entities := named_entities (ev_title event) in
  let inserted :=
    firstn (room max_terms terms0) (filter (passes terms0) entities) in
  let terms := query_terms_of event max_terms in
  terms = rev (map quoted inserted) ++ terms0 /\
  (forall e, In e entities -> In (lower e) title_terms ->
     ~ In e terms0 /\ (forall x, e <> quoted x) /\ passes terms0 e = true) /\
  (forall e, In e inserted -> In (lower e) title_terms ->
     In (quoted e) terms /\ In (lower e) terms /\
     ((Z.of_nat (length terms) <= max_terms)%Z ->
        contains (build_news_query event max_terms) (quoted e) = true /\
        contains (build_news_query event max_terms) (lower e) = true)) /\
  ((Z.of_nat (length terms0 + length (filter (passes terms0) entities))
      <= max_terms)%Z ->
     inserted = filter (passes terms0) entities /\
     slice_to max_terms terms = terms) /\
  (forall e, occurrences e inserted <= occurrences (quoted e) terms).
Proof.
  intros title_terms terms0 entities inserted terms.
  assert (Et : terms = rev (map quoted inserted) ++ terms0)
    by apply query_terms_closed.
  split; [exact Et|]. split; [|split; [|split]].
  - intros e He Hl. apply entity_of_title_term_passes; assumption.
  - intros e Hi Hl.
    assert (Hq : In (quoted e) terms).
    { rewrite Et. apply in_or_app; left.
      apply in_rev. rewrite rev_involutive. apply in_map, Hi. }
    assert (Hw : In (lower e) terms).
    { rewrite Et. apply in_or_app; right. apply tag_loop_keeps, Hl. }
    split; [exact Hq|]. split; [exact Hw|].
    intros Hlen. unfold build_news_query. fold terms.
    rewrite (slice_to_all _ _ Hlen).
    split; apply join_contains; assumption.
  - intros Hfit.
    assert (Ei : inserted = filter (passes terms0) entities).
    { apply firstn_all2. unfold room. lia. }
    split; [exact Ei|].
    apply slice_to_all. rewrite Et, Ei, length_app, length_rev, length_map. lia.
  - intros e. rewrite Et, occurrences_app, occurrences_rev, occurrences_quoted.
    lia.
Qed.

Example twice_query :
  show (build_news_query twice_event 8)
  = show (quoted (lit "Twitter") ++ space :: quoted (lit "Twitter")
          ++ lit " twitter buys twitter").
Proof. vm_compute. reflexivity. Qed.

Lemma entity_duplicate_check_witness :
  contains (build_news_query twice_event 8) (quoted (lit "Twitter")) = true /\
  contains (build_news_query twice_event 8) (lower (lit "Twitter")) = true.
Proof.
  apply (proj1 (proj2 (proj2 (entity_duplicate_check twice_event 8)))
           (lit "Twitter")).
  - vm_compute; left; reflexivity.
  - vm_compute; left; reflexivity.
  - vm_compute; discriminate.
Defined.

(** The loop stops at [max_terms] after the third name: Tesla is
    detected and its lower-case form is a title term, yet the query does
    not have the quoted Tesla. *)
Lemma five_names_tesla_not_inserted :
  mem (lit "Tesla") (named_entities (ev_title five_names_event)) = true /\
  mem (lower (lit "Tesla"))
      (firstn 5 (extract_key_terms (ev_title five_names_event))) = true /\
  show (build_news_query five_names_event 8)
    = show (quoted (lit "Amazon") ++ space :: quoted (lit "Google")
            ++ space :: quoted (lit "Apple")
            ++ lit " apple google amazon tesla nvidia") /\
  contains (build_news_query five_names_event 8) (quoted (lit "Tesla"))
    = false.
Proof. repeat split; vm_compute; reflexivity. Qed.

(** The terms of the query for [elon_event], as the orchestrator passes
    them to the scorer: seven entries, four distinct cleaned terms, all
    found in the title of the first article. *)
Lemma title_match_counts_repeats :
  let article_title := lower (lit "Elon Musk buys Twitter") in
  let query_terms := split (build_news_query elon_event 8) in
  snd (title_rule article_title query_terms zero) = [title_tag 7] /\
  distinct_matches article_title query_terms = 4 /\
  snd (title_rule article_title query_terms zero)
    <> [title_tag (distinct_matches article_title query_terms)].
Proof.
  repeat split; try (vm_compute; reflexivity).
  vm_compute. discriminate.
Qed.

(** *** Dated articles of the worked request *)

Lemma score_article_recency_witness :
  (score (score_article noon yesterday_article elon_event elon_terms)
     = (score (score_article noon (undated yesterday_article)
                 elon_event elon_terms) + 2)%Z /\
   In very_recent
      (match_reasons (score_article noon yesterday_article
                        elon_event elon_terms))) /\
  (score (score_article noon two_days_article elon_event elon_terms)
     = (score (score_article noon (undated two_days_article)
                 elon_event elon_terms) + 1)%Z /\
   In recent
      (match_reasons (score_article noon two_days_article
                        elon_event elon_terms))) /\
  (score (score_article noon four_days_article elon_event elon_terms)
     = score (score_article noon (undated four_days_article)
                elon_event elon_terms) /\
   ~ In very_recent
       (match_reasons (score_article noon four_days_article
                         elon_event elon_terms)) /\
   ~ In recent
       (match_reasons (score_article noon four_days_article
                         elon_event elon_terms))) /\
  (score (score_article noon undated_article elon_event elon_terms)
     = score (score_article noon (undated undated_article)
                elon_event elon_terms) /\
   ~ In very_recent
       (match_reasons (score_article noon undated_article
                         elon_event elon_terms)) /\
   ~ In recent
       (match_reasons (score_article noon undated_article
                         elon_event elon_terms))).
Proof.
  split; [|split; [|split]].
  - destruct (score_article_recency noon yesterday_article elon_event
                elon_terms) as [H _].
    destruct (H (naive (noon - days 1)) eq_refl) as (_ & _ & _ & H1 & _).
    exact (H1 eq_refl).
  - destruct (score_article_recency noon two_days_article elon_event
                elon_terms) as [H _].
    destruct (H (naive (noon - days 2)) eq_refl) as (_ & _ & _ & _ & H2 & _).
    exact (H2 eq_refl).
  - destruct (score_article_recency noon four_days_article elon_event
                elon_terms) as [H _].
    destruct (H (naive (noon - days 4)) eq_refl)
      as (_ & _ & _ & _ & _ & H3 & _).
    exact (H3 eq_refl).
  - destruct (score_article_recency noon undated_article elon_event
                elon_terms) as [_ H].
    exact (H eq_refl).
Defined.

Lemma score_article_future_published_witness :
  (td_days (noon - (noon + days 1)) < 0)%Z /\
  score (score_article noon tomorrow_article elon_event elon_terms)
    = (score (score_article noon (undated tomorrow_article)
                elon_event elon_terms) + 2)%Z /\
  In very_recent
     (match_reasons (score_article noon tomorrow_article
                       elon_event elon_terms)) /\
  ~ In recent
      (match_reasons (score_article noon tomorrow_article
                        elon_event elon_terms)).
Proof.
  apply (score_article_future_published noon tomorrow_article elon_event
           elon_terms (naive (noon + days 1))).
  - reflexivity.
  - vm_compute; reflexivity.
Defined.

(** An article published 36 hours before [now] is more than one day old,
    and yet it is given the [very_recent] bonus of 2 and not the [recent]
    bonus of 1: its age in whole days is 1. *)
Lemma day_and_a_half_very_recent :
  (days 1 < noon - (noon - days 1 - 43200000000) < days 2)%Z /\
  score (score_article noon day_and_a_half_article elon_event elon_terms)
    = (score (score_article noon (undated day_and_a_half_article)
                elon_event elon_terms) + 2)%Z /\
  In very_recent
     (match_reasons (score_article noon day_and_a_half_article
                       elon_event elon_terms)) /\
  ~ In recent
      (match_reasons (score_article noon day_and_a_half_article
                        elon_event elon_terms)).
Proof.
  split; [vm_compute; split; reflexivity|].
  split; [vm_compute; reflexivity|].
  split.
  - vm_compute. do 3 right. left. reflexivity.
  - vm_compute. intros H.
    repeat (destruct H as [H|H]; [discriminate H|]). exact H.
Qed.

(** An article a day and a half old is still given the [very_recent]
    bonus: its age in whole days is 1. *)
Example day_and_a_half_old :
  recency_rule noon (Some (naive (noon - days 1 - 43200000000))) zero
  = (2%Z, [very_recent]).
Proof. vm_compute. reflexivity. Qed.

(** * Further properties *)

(** ** The term extractor *)

Lemma split_from_nonspace s : forall cur w c,
  In w (split_from cur s) -> In c w ->
  In c cur \/ (In c s /\ is_space c = false).
Proof.
  induction s as [|x s IH]; intros cur w c Hw Hc; simpl in Hw.
  - destruct cur; [contradiction|]. destruct Hw as [<- | []]. auto.
  - destruct (is_space x) eqn:Ex.
    + destruct cur as [|y cur].
      * destruct (IH _ _ _ Hw Hc) as [[] | [H1 H2]].
        right; split; [right; exact H1 | exact H2].
      * destruct Hw as [<- | Hw]; [auto|].
        destruct (IH _ _ _ Hw Hc) as [[] | [H1 H2]].
        right; split; [right; exact H1 | exact H2].
    + destruct (IH _ _ _ Hw Hc) as [H | [H1 H2]].
      * apply in_app_or in H. destruct H as [H | [<- | []]]; [auto|].
        right; split; [left; reflexivity | exact Ex].
      * right; split; [right; exact H1 | exact H2].
Qed.

Lemma space_is_space : is_space space = true.
Proof. reflexivity. Qed.

Lemma extract_key_terms_chars text w c :
  In w (extract_key_terms text) -> In c w -> term_char c = true.
Proof.
  unfold extract_key_terms. intros H Hc. apply filter_In in H.
  destruct H as [Hw _].
  destruct (split_from_nonspace _ _ _ _ Hw Hc) as [[] | [H Hs]].
  unfold sub_non_word_space, lower in H. rewrite map_map in H.
  apply in_map_iff in H. destruct H as (c0 & E & _).
  destruct (is_word (lower_char c0)) eqn:Ew; simpl in E.
  - subst c. unfold term_char. rewrite Ew, lower_char_not_upper. reflexivity.
  - destruct (is_space (lower_char c0)) eqn:Es; subst c;
      [congruence | rewrite space_is_space in Hs; discriminate].
Qed.

Lemma extract_key_terms_long text w :
  In w (extract_key_terms text) -> 3 <= length w.
Proof.
  intros H. unfold extract_key_terms in H. apply filter_In in H.
  destruct H as [_ H]. apply andb_true_iff in H. destruct H as [_ H].
  apply Nat.ltb_lt in H. exact H.
Qed.

(** X1.  Every key term has at least three characters, all of them word
    characters that are not upper-case letters, and is not a stop word. *)
Theorem extract_key_terms_shape (text w : str) :
  In w (extract_key_terms text) ->
  3 <= length w /\ forallb term_char w = true /\ mem w STOP_WORDS = false.
Proof.
  intros H. split; [|split].
  - apply (extract_key_terms_long text w H).
  - apply forallb_forall. intros c Hc.
    apply (extract_key_terms_chars text w c H Hc).
  - apply (extract_key_terms_spec text w H).
Qed.

Lemma split_from_word w : forall cur s,
  forallb (fun c => negb (is_space c)) w = true ->
  split_from cur (w ++ s) = split_from (cur ++ w) s.
Proof.
  induction w as [|c w IH]; intros cur s H; simpl.
  - rewrite app_nil_r. reflexivity.
  - simpl in H. apply andb_true_iff in H. destruct H as [Hc Hw].
    apply negb_true_iff in Hc. rewrite Hc, (IH _ _ Hw), <- app_assoc.
    reflexivity.
Qed.

Lemma split_join l : Forall is_token l -> split (join l) = l.
Proof.
  unfold split. induction l as [|x l IH]; intros H; [reflexivity|].
  inversion H as [|? ? [Hn Hx] Hl]; subst.
  destruct l as [|y l].
  - simpl join. rewrite <- (app_nil_r x) at 1.
    rewrite (split_from_word x [] [] Hx). simpl.
    destruct x; [congruence | reflexivity].
  - rewrite join_cons, (split_from_word x [] _ Hx). simpl app.
    cbn [split_from]. rewrite space_is_space.
    destruct x as [|c x]; [congruence|]. rewrite (IH Hl). reflexivity.
Qed.

Lemma term_char_token w :
  w <> [] -> forallb term_char w = true -> is_token w.
Proof.
  intros Hn H. split; [exact Hn|].
  apply forallb_forall. intros c Hc. rewrite forallb_forall in H.
  specialize (H c Hc). unfold term_char in H.
  apply andb_true_iff in H. destruct H as [H _].
  destruct (is_space c) eqn:E; [|reflexivity].
  apply space_not_word in E. congruence.
Qed.

Lemma join_chars l c :
  In c (join l) -> c = space \/ exists w, In w l /\ In c w.
Proof.
  induction l as [|x l IH]; intros H; [contradiction|].
  destruct l as [|y l].
  - right. exists x. split; [left; reflexivity | exact H].
  - rewrite join_cons in H. apply in_app_or in H.
    destruct H as [H | [<- | H]].
    + right. exists x. split; [left; reflexivity | exact H].
    + left; reflexivity.
    + destruct (IH H) as [-> | (w & Hw & Hc)]; [left; reflexivity|].
      right. exists w. split; [right; exact Hw | exact Hc].
Qed.

Lemma map_id_on {A} (f : A -> A) l :
  (forall x, In x l -> f x = x) -> map f l = l.
Proof.
  induction l as [|x l IH]; intros H; simpl; [reflexivity|].
  rewrite (H x (or_introl eq_refl)), IH; [reflexivity|].
  intros y Hy. apply H. right; exact Hy.
Qed.

Lemma filter_all {A} (p : A -> bool) l :
  (forall x, In x l -> p x = true) -> filter p l = l.
Proof.
  induction l as [|x l IH]; intros H; simpl; [reflexivity|].
  rewrite (H x (or_introl eq_refl)), IH; [reflexivity|].
  intros y Hy. apply H. right; exact Hy.
Qed.

(** X2.  Extracting the key terms of the joined key terms gives the same
    terms: the extractor is idempotent through [' '.join]. *)
Theorem extract_key_terms_join (text : str) :
  extract_key_terms (join (extract_key_terms text)) = extract_key_terms text.
Proof.
  set (l := extract_key_terms text).
  assert (Hc : forall c, In c (join l) -> c = space \/ term_char c = true).
  { intros c H. destruct (join_chars _ _ H) as [-> | (w & Hw & Hc)]; [auto|].
    right. apply (extract_key_terms_chars text w c Hw Hc). }
  assert (Hlow : lower (join l) = join l).
  { apply map_id_on. intros c H. unfold lower_char.
    destruct (Hc c H) as [-> | Ht]; [reflexivity|].
    unfold term_char in Ht. apply andb_true_iff in Ht. destruct Ht as [_ Ht].
    apply negb_true_iff in Ht. rewrite Ht. reflexivity. }
  assert (Hsub : sub_non_word_space (join l) = join l).
  { apply map_id_on. intros c H.
    destruct (Hc c H) as [-> | Ht]; [reflexivity|].
    unfold term_char in Ht. apply andb_true_iff in Ht. destruct Ht as [-> _].
    reflexivity. }
  unfold extract_key_terms at 1. rewrite Hlow, Hsub.
  rewrite split_join.
  - apply filter_all. intros w Hw. subst l.
    unfold extract_key_terms in Hw. apply filter_In in Hw. apply Hw.
  - apply Forall_forall. intros w Hw.
    pose proof (extract_key_terms_long text w Hw) as Hlen.
    apply term_char_token.
    + destruct w; [simpl in Hlen; lia | discriminate].
    + apply forallb_forall. intros c Hc'.
      apply (extract_key_terms_chars text w c Hw Hc').
Qed.

Lemma split_from_app_space c a : forall cur b,
  is_space c = true ->
  split_from cur (a ++ c :: b) = split_from cur a ++ split b.
Proof.
  unfold split. induction a as [|x a IH]; intros cur b Hc; simpl.
  - rewrite Hc. destruct cur; reflexivity.
  - destruct (is_space x).
    + destruct cur; rewrite (IH _ _ Hc); reflexivity.
    + apply IH, Hc.
Qed.

(** X3.  On ASCII text, a character that is not a word character
    separates terms: the key terms of [a], that character and [b] are
    the key terms of [a] followed by those of [b]. *)
Theorem extract_key_terms_app (a b : str) (c : ascii) :
  ascii_text (a ++ c :: b) = true ->
  is_word c = false ->
  extract_key_terms (a ++ c :: b) = extract_key_terms a ++ extract_key_terms b.
Proof.
  intros _ Hc. unfold extract_key_terms, lower, sub_non_word_space.
  rewrite !map_app. cbn [map].
  set (f := fun c0 => if is_word c0 || is_space c0 then c0 else space).
  assert (Hs : is_space (f (lower_char c)) = true).
  { assert (El : lower_char c = c).
    { unfold lower_char. destruct (is_upper c) eqn:E; [|reflexivity].
      apply upper_word in E. congruence. }
    rewrite El. unfold f. rewrite Hc. simpl.
    destruct (is_space c) eqn:E; [exact E | reflexivity]. }
  unfold split at 1. rewrite (split_from_app_space _ _ _ _ Hs).
  rewrite filter_app. reflexivity.
Qed.

Lemma extract_key_terms_shape_witness :
  3 <= length (lit "fed") /\ forallb term_char (lit "fed") = true /\
  mem (lit "fed") STOP_WORDS = false.
Proof.
  apply (extract_key_terms_shape (lit "The Fed will raise rates")).
  vm_compute. left. reflexivity.
Defined.

Lemma extract_key_terms_app_witness :
  extract_key_terms (lit "Will the Fed" ++ "?"%char :: lit "Rates up")
  = extract_key_terms (lit "Will the Fed") ++ extract_key_terms (lit "Rates up").
Proof. apply extract_key_terms_app; reflexivity. Defined.

(** ** The loop over the tags *)

Lemma subseq_nil_l {A} (b : list A) : subseq [] b.
Proof. induction b; constructor; assumption. Qed.

(** What the tag loop does to the term list: it appends [added]. *)
Lemma tag_loop_added max_terms : forall tags terms,
  exists added,
    tag_loop max_terms terms tags = terms ++ added /\
    subseq added tags /\
    Forall (fun t => mem (lower t) GENERIC_TAGS = false) added /\
    NoDup (map lower added) /\
    (forall t, In t added -> ~ In (lower t) (map lower terms)) /\
    (Z.of_nat (length added)
       <= Z.max 1 (max_terms - Z.of_nat (length terms)))%Z.
Proof.
  induction tags as [|tag tags IH]; intros terms.
  - exists []. simpl. rewrite app_nil_r.
    repeat split; try constructor; [tauto | lia].
  - rewrite tag_loop_cons.
    destruct (negb (mem (lower tag) GENERIC_TAGS)) eqn:Eg;
      [destruct (negb (mem (lower tag) (map lower terms))) eqn:Ed|];
      cbn [andb].
    + apply negb_true_iff in Eg, Ed. apply mem_false in Ed.
      destruct (max_terms <=? Z.of_nat (length (terms ++ [tag])))%Z eqn:El.
      * exists [tag]. split; [reflexivity|].
        split; [apply subseq_take, subseq_nil_l|].
        split; [repeat constructor; exact Eg|].
        split; [repeat constructor; simpl; tauto|].
        split; [intros t [<- | []]; exact Ed | simpl; lia].
      * apply Z.leb_gt in El. rewrite length_app in El. simpl in El.
        destruct (IH (terms ++ [tag]))
          as (added & E & Hs & Hg & Hn & Hd & Hl).
        exists (tag :: added). rewrite E, <- app_assoc.
        split; [reflexivity|].
        split; [apply subseq_take, Hs|].
        split; [constructor; assumption|].
        split.
        { simpl. constructor; [|exact Hn].
          intros Hin. apply in_map_iff in Hin.
          destruct Hin as (t & Et & Ht). apply (Hd t Ht).
          rewrite Et, map_app. apply in_or_app. right. left. reflexivity. }
        split.
        { intros t [<- | Ht]; [exact Ed|].
          intros Hin. apply (Hd t Ht). rewrite map_app.
          apply in_or_app. left. exact Hin. }
        rewrite length_app in Hl. simpl in Hl. simpl length. lia.
    + destruct (IH terms) as (added & E & Hs & Hg & Hn & Hd & Hl).
      exists added. repeat split; auto. apply subseq_skip, Hs.
    + destruct (IH terms) as (added & E & Hs & Hg & Hn & Hd & Hl).
      exists added. repeat split; auto. apply subseq_skip, Hs.
Qed.

(** X4.  The tag loop only appends to the term list.  The tags it appends
    are tags of the event in their order; none of them is generic; no two
    of them are equal when lower-cased, and none is equal, when
    lower-cased, to the lower-cased form of a term that was there before;
    their number is at most [max_terms] less the number of terms there
    before, and at most 1 when that is not positive. *)
Theorem build_news_query_tags (event : Event) (max_terms : Z) :
  let title_terms := firstn 5 (extract_key_terms (ev_title event)) in
  exists added,
    tag_loop max_terms title_terms (ev_tags event) = title_terms ++ added /\
    subseq added (ev_tags event) /\
    Forall (fun t => mem (lower t) GENERIC_TAGS = false) added /\
    NoDup (map lower added) /\
    (forall t, In t added -> ~ In (lower t) (map lower title_terms)) /\
    (Z.of_nat (length added)
       <= Z.max 1 (max_terms - Z.of_nat (length title_terms)))%Z.
Proof. intros title_terms. apply tag_loop_added. Qed.

Lemma In_firstn_app {A} (x : A) (a b : list A) n :
  In x a -> length a <= n -> In x (firstn n (a ++ b)).
Proof.
  intros H Hl. rewrite firstn_app.
  apply in_or_app. left. rewrite firstn_all2; assumption.
Qed.

(** X5.  With [max_terms] at least 6 (8 by default) the final slice cuts
    at most one term off the term list, and neither a quoted entity that
    was inserted nor one of the (first five) title terms: each of these
    is a term of the query. *)
Theorem build_news_query_keeps (event : Event) (max_terms : Z) :
  (6 <= max_terms)%Z ->
  let title_terms := firstn 5 (extract_key_terms (ev_title event)) in
  let terms0 := tag_loop max_terms title_terms (ev_tags event) in
  let inserted :=
    firstn (room max_terms terms0)
           (filter (passes terms0) (named_entities (ev_title event))) in
  let terms := query_terms_of event max_terms in
  let kept := slice_to max_terms terms in
  (Z.of_nat (length terms) <= max_terms + 1)%Z /\
  (Z.of_nat (length kept) <= max_terms)%Z /\
  (forall t, In t title_terms -> In t kept) /\
  (forall e, In e inserted -> In (quoted e) kept).
Proof.
  intros Hmax title_terms terms0 inserted terms kept.
  assert (Et : terms = rev (map quoted inserted) ++ terms0)
    by apply query_terms_closed.
  destruct (tag_loop_added max_terms (ev_tags event) title_terms)
    as (added & E0 & _ & _ & _ & _ & Hadd).
  fold terms0 in E0.
  assert (H5 : length title_terms <= 5) by apply firstn_le_length.
  assert (Hins : length inserted <= room max_terms terms0)
    by apply firstn_le_length.
  assert (Hl0 : length terms0 = length title_terms + length added)
    by (rewrite E0; apply length_app).
  assert (Ek : kept = firstn (Z.to_nat max_terms) terms).
  { unfold kept, slice_to.
    destruct (0 <=? max_terms)%Z eqn:E; [reflexivity|].
    apply Z.leb_gt in E. lia. }
  unfold room in Hins.
  clearbody title_terms terms0 inserted terms kept.
  assert (Hfront : (Z.of_nat (length inserted + length title_terms)
                    <= max_terms)%Z) by lia.
  split; [|split; [|split]].
  - rewrite Et, length_app, length_rev, length_map. lia.
  - rewrite Ek. pose proof (firstn_le_length (Z.to_nat max_terms) terms). lia.
  - intros t Ht. rewrite Ek, Et, E0, app_assoc.
    apply In_firstn_app.
    + apply in_or_app. right. exact Ht.
    + rewrite length_app, length_rev, length_map. lia.
  - intros e He. rewrite Ek, Et. apply In_firstn_app.
    + apply in_rev. rewrite rev_involutive. apply in_map, He.
    + rewrite length_rev, length_map. lia.
Qed.

Lemma build_news_query_keeps_witness :
  In (lit "tesla") (slice_to 8 (query_terms_of five_names_event 8)).
Proof.
  apply (proj1 (proj2 (proj2 (build_news_query_keeps five_names_event 8
                                ltac:(lia))))).
  vm_compute. do 3 right. left. reflexivity.
Defined.

(** ** The time window *)

Lemma to_date_of_bounds (now : Z) (event : Event) :
  (now <= to_date_of now event <= now + days 1)%Z.
Proof.
  unfold to_date_of.
  assert (Hd : (0 < days 1)%Z) by reflexivity.
  destruct (ev_end_date event) as [e|]; [|lia].
  destruct (now <? to_naive e)%Z eqn:E;
    [apply Z.ltb_lt in E | apply Z.ltb_ge in E]; lia.
Qed.

Lemma get_time_window_returned
  (now : Z) (event : Event) (default_days_back buffer_days : Z) w :
  get_time_window now event default_days_back buffer_days = Return w ->
  from_date_of now event default_days_back buffer_days = Return (fst w) /\
  snd w = to_date_of now event.
Proof.
  unfold get_time_window. cbv zeta.
  destruct (from_date_of now event default_days_back buffer_days) as [f|e];
    cbn [bind]; intros H; [|discriminate].
  injection H as <-. split; reflexivity.
Qed.

(** X6.  [to_date] is never before [now] and never more than one day
    after it; it is [now] when the event has no end date or an end date
    that is not after [now], and the end date itself when that is within
    the next day.  It is the second component of every window that
    [get_time_window] returns. *)
Theorem get_time_window_to_date
  (now : Z) (event : Event) (default_days_back buffer_days : Z) :
  let to_date := to_date_of now event in
  (now <= to_date <= now + days 1)%Z /\
  (ev_end_date event = None -> to_date = now) /\
  (forall end_date, ev_end_date event = Some end_date ->
     ((to_naive end_date <= now)%Z -> to_date = now) /\
     ((now < to_naive end_date <= now + days 1)%Z ->
        to_date = to_naive end_date) /\
     ((now + days 1 < to_naive end_date)%Z -> to_date = (now + days 1)%Z)) /\
  (forall w,
     get_time_window now event default_days_back buffer_days = Return w ->
     snd w = to_date).
Proof.
  cbv zeta. split; [apply to_date_of_bounds|].
  split; [|split].
  - unfold to_date_of. intros ->. reflexivity.
  - unfold to_date_of. intros e ->.
    assert (Hd : (0 < days 1)%Z) by reflexivity.
    destruct (now <? to_naive e)%Z eqn:E;
      [apply Z.ltb_lt in E | apply Z.ltb_ge in E]; repeat split; lia.
  - intros w H. apply (get_time_window_returned _ _ _ _ _ H).
Qed.

(** X7.  When the subtraction gives a datetime, the window is returned,
    and it is in order ([from_date <= to_date]) when the event has no
    start date and [default_days_back] is not negative, and when its
    start date less the buffer is not after [now]; it is inverted
    ([to_date < from_date]) when the start date less the buffer is more
    than one day after [now]. *)
Theorem get_time_window_order
  (now : Z) (event : Event) (default_days_back buffer_days : Z) :
  (ev_start_date event = None ->
     (0 <= default_days_back <= 999999999)%Z ->
     (datetime_min <= now - days default_days_back <= datetime_max)%Z ->
     exists w,
       get_time_window now event default_days_back buffer_days = Return w /\
       (fst w <= snd w)%Z) /\
  (forall start_date, ev_start_date event = Some start_date ->
     (Z.abs buffer_days <= 999999999)%Z ->
     (datetime_min <= to_naive start_date - days buffer_days
        <= datetime_max)%Z ->
     exists w,
       get_time_window now event default_days_back buffer_days = Return w /\
       ((to_naive start_date - days buffer_days <= now)%Z ->
          (now - days 30 <= fst w <= now)%Z /\ (fst w <= snd w)%Z) /\
       ((now + days 1 < to_naive start_date - days buffer_days)%Z ->
          (snd w < fst w)%Z)).
Proof.
  pose proof (to_date_of_bounds now event) as Hb.
  assert (Hd : (0 < days 30)%Z) by reflexivity.
  unfold get_time_window. cbv zeta. split.
  - intros Hs Hn Hr.
    assert (Ha : (Z.abs default_days_back <= 999999999)%Z) by lia.
    rewrite (from_date_of_default now event default_days_back buffer_days
               Hs Ha Hr).
    cbn [bind]. eexists; split; [reflexivity|]. cbn [fst snd].
    unfold days, day_us in *. nia.
  - intros sd Hs Hn Hr.
    rewrite (from_date_of_start now event default_days_back _ sd Hs Hn Hr).
    cbn [bind]. eexists; split; [reflexivity|]. cbn [fst snd].
    split; intros H; [split|]; lia.
Qed.

Lemma get_time_window_to_date_witness :
  to_date_of noon closing_event = (noon + 43200000000)%Z.
Proof.
  apply (proj1 (proj2 (proj1 (proj2 (proj2
           (get_time_window_to_date noon closing_event 7 2)))
           _ eq_refl))).
  vm_compute. split; [reflexivity | discriminate].
Defined.

Lemma get_time_window_order_witness :
  exists w,
    get_time_window noon future_event 7 2 = Return w /\
    (snd w < fst w)%Z.
Proof.
  destruct (proj2 (get_time_window_order noon future_event 7 2)
              (naive (noon + days 10)) eq_refl
              ltac:(vm_compute; discriminate)
              ltac:(vm_compute; split; discriminate))
    as (w & E & _ & H).
  exists w. split; [exact E|]. apply H. vm_compute. reflexivity.
Defined.

(** ** The scorer, rule by rule *)

Lemma desc_rule_part text terms :
  desc_rule text terms zero =
  (Z.of_nat (length (matching_terms text terms)),
   if length (matching_terms text terms) =? 0 then []
   else [desc_tag (length (matching_terms text terms))]).
Proof.
  unfold desc_rule. rewrite count_matches_length.
  destruct (length (matching_terms text terms)) as [|n]; [reflexivity|].
  change (0 <? S n) with true. change (S n =? 0) with false. cbv iota.
  unfold award, zero. cbn [fst snd app]. f_equal. lia.
Qed.

Lemma entity_rule_hits text entities :
  entity_rule text entities zero =
  ((5 * Z.of_nat (length (entity_hits text entities)))%Z,
   map entity_tag (entity_hits text entities)).
Proof.
  unfold entity_hits.
  induction entities as [|e l IH]; [reflexivity|].
  cbn [entity_rule filter]. destruct (contains text (lower e)); [|exact IH].
  rewrite entity_rule_join, IH. unfold join_tally, award, zero.
  cbn [fst snd app map length]. f_equal. lia.
Qed.

(** X8.  The score is 3 for each matching entry of the query terms in the
    title, 1 for each in the description, 5 for each entity of the event
    title found in the article title, plus the recency and the source
    bonus; the reasons are the tags of the rules that fired, in the order
    title, description, entities (in order of detection), recency,
    source. *)
Theorem score_article_formula
  (now : Z) (a : Article) (event : Event) (query_terms : list str) :
  let article_title := lower (or_empty (title a)) in
  let article_desc := lower (or_empty (description a)) in
  let t := length (matching_terms article_title query_terms) in
  let d := length (matching_terms article_desc query_terms) in
  let hits := entity_hits article_title (named_entities (ev_title event)) in
  let recency := recency_rule now (published_at a) zero in
  let sa := score_article now a event query_terms in
  score sa = (3 * Z.of_nat t + Z.of_nat d + 5 * Z.of_nat (length hits)
              + fst recency + fst (source_tally a))%Z /\
  match_reasons sa =
    (if t =? 0 then [] else [title_tag t])
    ++ (if d =? 0 then [] else [desc_tag d])
    ++ map entity_tag hits
    ++ snd recency ++ snd (source_tally a).
Proof.
  intros article_title article_desc t d hits recency sa.
  unfold sa, score_article. cbn [score match_reasons].
  rewrite score_tally_split. unfold text_tally.
  fold article_title article_desc.
  rewrite entity_rule_join, desc_rule_join.
  rewrite title_rule_part, desc_rule_part, entity_rule_hits.
  fold t d hits recency. unfold join_tally, title_part. cbn [fst snd].
  split; [lia|]. rewrite <- !app_assoc. reflexivity.
Qed.

Lemma filter_length_le {A} (p : A -> bool) l : length (filter p l) <= length l.
Proof.
  induction l as [|x l IH]; simpl; [lia|]. destruct (p x); simpl; lia.
Qed.

Lemma recency_rule_bounds now published :
  (0 <= fst (recency_rule now published zero) <= 2)%Z.
Proof.
  unfold recency_rule. destruct published as [p|]; [|simpl; lia].
  destruct (_ <=? 1)%Z; [simpl; lia|].
  destruct (_ <=? 3)%Z; simpl; lia.
Qed.

Lemma source_tally_bounds a : (0 <= fst (source_tally a) <= 1)%Z.
Proof.
  unfold source_tally, source_rule. destruct (existsb _ _); simpl; lia.
Qed.

(** X9.  The score has no fixed bound but is bounded by its inputs: at
    most 4 for each query term, 5 for each entity of the event title,
    and 3. *)
Theorem score_article_upper_bound
  (now : Z) (a : Article) (event : Event) (query_terms : list str) :
  (score (score_article now a event query_terms)
   <= 4 * Z.of_nat (length query_terms)
      + 5 * Z.of_nat (length (named_entities (ev_title event))) + 3)%Z.
Proof.
  unfold score_article. cbn [score].
  rewrite score_tally_split. unfold text_tally.
  rewrite entity_rule_join, desc_rule_join.
  rewrite title_rule_part, desc_rule_part, entity_rule_hits.
  unfold join_tally, title_part. cbn [fst snd].
  pose proof (filter_length_le
    (fun term => contains (lower (or_empty (title a))) (term_clean term))
    query_terms) as H1.
  pose proof (filter_length_le
    (fun term => contains (lower (or_empty (description a))) (term_clean term))
    query_terms) as H2.
  pose proof (filter_length_le
    (fun entity => contains (lower (or_empty (title a))) (lower entity))
    (named_entities (ev_title event))) as H3.
  pose proof (recency_rule_bounds now (published_at a)).
  pose proof (source_tally_bounds a).
  unfold matching_terms, entity_hits. lia.
Qed.

(** X10.  An article published at most one whole day before [now], or
    after [now], has a score of at least 2 whatever its texts are: it
    clears the default [min_score] of 2.0 without matching anything. *)
Theorem score_article_recent_clears
  (now : Z) (a : Article) (event : Event) (query_terms : list str)
  (p : datetime) :
  published_at a = Some p ->
  (td_days (now - to_naive p) <= 1)%Z ->
  (2 <= score (score_article now a event query_terms))%Z /\
  clears 2 (score_article now a event query_terms) = true.
Proof.
  intros Hp Hd.
  assert (H : (2 <= score (score_article now a event query_terms))%Z).
  { destruct (score_article_bonus now a event query_terms
                (award 2 very_recent zero)) as [-> _].
    - rewrite Hp. unfold recency_rule.
      destruct (_ <=? 1)%Z eqn:E; [reflexivity|].
      apply Z.leb_gt in E. lia.
    - destruct (paid_score_tally now (undated a) event query_terms) as [P _].
      unfold score_article. cbn [score fst award zero].
      pose proof (Nat2Z.is_nonneg
        (length (snd (score_tally now (undated a) event query_terms)))).
      simpl. lia. }
  split; [exact H|].
  unfold clears. apply Qle_bool_iff.
  change 2%Q with (inject_Z 2). rewrite <- Zle_Qle. exact H.
Qed.

(** ** Case and quote markers *)

Lemma lower_lower s : lower (lower s) = lower s.
Proof.
  unfold lower. rewrite map_map. apply map_ext. intros c.
  unfold lower_char at 1. rewrite lower_char_not_upper. reflexivity.
Qed.

Lemma lower_or_empty x :
  lower (or_empty (option_map lower x)) = lower (or_empty x).
Proof. destruct x; [apply lower_lower | reflexivity]. Qed.

Lemma lower_char_dquote c :
  Ascii.eqb dquote (lower_char c) = Ascii.eqb dquote c.
Proof.
  destruct c as [[] [] [] [] [] [] [] []]; reflexivity.
Qed.

Lemma drop_while_lower s :
  drop_while (Ascii.eqb dquote) (lower s)
  = lower (drop_while (Ascii.eqb dquote) s).
Proof.
  induction s as [|c s IH]; [reflexivity|].
  cbn [lower map drop_while]. rewrite lower_char_dquote.
  destruct (Ascii.eqb dquote c); [exact IH | reflexivity].
Qed.

Lemma term_clean_lower term : term_clean (lower term) = term_clean term.
Proof.
  unfold term_clean, strip.
  rewrite drop_while_lower. unfold lower at 2. rewrite <- map_rev.
  fold (lower (rev (drop_while (Ascii.eqb dquote) term))).
  rewrite drop_while_lower. unfold lower at 2. rewrite <- map_rev.
  fold (lower (rev (drop_while (Ascii.eqb dquote)
                      (rev (drop_while (Ascii.eqb dquote) term))))).
  apply lower_lower.
Qed.

Lemma count_matches_lower text terms :
  count_matches text (map lower terms) = count_matches text terms.
Proof.
  induction terms as [|t l IH]; [reflexivity|].
  cbn [map count_matches]. fold (term_clean (lower t)) (term_clean t).
  rewrite term_clean_lower, IH. reflexivity.
Qed.

(** X11.  The scorer sees the case neither of the article nor of the
    query terms: with the title, the description and the source name of
    the article and every query term in lower case, the score and the
    reasons are the same. *)
Theorem score_article_ignores_case
  (now : Z) (a : Article) (event : Event) (query_terms : list str) :
  let sa := score_article now a event query_terms in
  let sb := score_article now (lower_texts a) event (map lower query_terms) in
  score sb = score sa /\ match_reasons sb = match_reasons sa.
Proof.
  unfold score_article, score_tally. cbn [score match_reasons].
  cbn [lower_texts title description source_name published_at].
  rewrite !lower_or_empty. unfold title_rule, desc_rule.
  rewrite !count_matches_lower. split; reflexivity.
Qed.

Lemma drop_while_all p s : forallb p s = true -> drop_while p s = [].
Proof.
  induction s as [|c s IH]; simpl; [reflexivity|].
  intros H. apply andb_true_iff in H. destruct H as [-> H]. apply IH, H.
Qed.

Lemma contains_nil text : contains text [] = true.
Proof. destruct text; reflexivity. Qed.

Lemma matching_terms_in text terms term :
  In term terms -> contains text (term_clean term) = true ->
  1 <= length (matching_terms text terms).
Proof.
  intros Hi Hc.
  assert (H : In term (matching_terms text terms))
    by (apply filter_In; auto).
  destruct (matching_terms text terms); [contradiction | simpl; lia].
Qed.

(** X12.  A query term made of quote markers only is found in every text,
    the empty one included: it adds 3 for the title and 1 for the
    description to the score of every article. *)
Theorem score_article_quote_term
  (now : Z) (a : Article) (event : Event) (query_terms : list str)
  (term : str) :
  In term query_terms ->
  forallb (Ascii.eqb dquote) term = true ->
  term_clean term = [] /\
  (4 <= score (score_article now a event query_terms))%Z.
Proof.
  intros Hi Hq.
  assert (Ec : term_clean term = []).
  { unfold term_clean, strip. rewrite (drop_while_all _ _ Hq). reflexivity. }
  split; [exact Ec|].
  unfold score_article. cbn [score].
  rewrite score_tally_split. unfold text_tally.
  rewrite entity_rule_join, desc_rule_join.
  rewrite title_rule_part, desc_rule_part, entity_rule_hits.
  unfold join_tally, title_part. cbn [fst snd].
  pose proof (matching_terms_in (lower (or_empty (title a))) query_terms term
                Hi) as H1.
  pose proof (matching_terms_in (lower (or_empty (description a)))
                query_terms term Hi) as H2.
  rewrite Ec, contains_nil in H1, H2.
  specialize (H1 eq_refl). specialize (H2 eq_refl).
  pose proof (recency_rule_bounds now (published_at a)).
  pose proof (source_tally_bounds a). lia.
Qed.

Lemma score_article_recent_clears_witness :
  clears 2 (score_article noon fresh_unrelated_article old_event
              (split (build_news_query old_event 8))) = true.
Proof.
  apply (proj2 (score_article_recent_clears noon fresh_unrelated_article
                  old_event (split (build_news_query old_event 8))
                  (naive (noon - days 1)) eq_refl
                  ltac:(vm_compute; discriminate))).
Defined.

Lemma score_article_quote_term_witness :
  (4 <= score (score_article noon undated_article old_event [[dquote]]))%Z.
Proof.
  apply (proj2 (score_article_quote_term noon undated_article old_event
                  [[dquote]] [dquote] (or_introl eq_refl) eq_refl)).
Defined.

(** ** The ranking *)

Section RankingFacts.

Variable search_everything :
  str -> Z -> Z -> str -> Z -> outcome (list Article * Z).
Variable clock : nat -> Z.

Lemma sort_desc_length l : length (sort_desc l) = length l.
Proof. apply Permutation_length, sort_desc_perm. Qed.

(** X13.  For a [max_articles] that is not negative the number of
    articles returned is [max_articles] or the number of fetched
    articles that clear [min_score], whichever is less. *)
Theorem match_news_to_event_length
  (event : Event) (max_articles : Z) (min_score : Q)
  (articles : list Article) (total : Z) :
  fetch search_everything clock event = Return (articles, total) ->
  (0 <= max_articles)%Z ->
  exists l,
    match_news_to_event search_everything clock event max_articles min_score
      = Return l /\
    length l = Nat.min (Z.to_nat max_articles)
                 (length (filter (clears min_score)
                            (scored_fetch clock event articles))).
Proof.
  intros Hf Hm.
  rewrite (match_news_to_event_fetched _ _ _ max_articles min_score _ _ Hf).
  eexists; split; [reflexivity|].
  unfold slice_to. destruct (0 <=? max_articles)%Z eqn:E;
    [|apply Z.leb_gt in E; lia].
  rewrite length_firstn, sort_desc_length. reflexivity.
Qed.

Lemma score_ge_trans : Relations_1.Transitive score_ge.
Proof. intros x y z. unfold score_ge. lia. Qed.

Lemma sort_desc_strongly l : StronglySorted score_ge (sort_desc l).
Proof. apply Sorted_StronglySorted; [exact score_ge_trans | apply sort_desc_sorted]. Qed.

Lemma StronglySorted_app_le (a b : list ScoredArticle) :
  StronglySorted score_ge (a ++ b) ->
  forall x y, In x a -> In y b -> (score y <= score x)%Z.
Proof.
  induction a as [|z a IH]; intros H x y Hx Hy; [contradiction|].
  simpl in H. inversion H as [|? ? Hs Hf]; subst.
  destruct Hx as [<- | Hx]; [|apply (IH Hs x y Hx Hy)].
  rewrite Forall_forall in Hf. apply Hf. apply in_or_app. right. exact Hy.
Qed.

(** X14.  Nothing is invented, nothing is returned twice, and the cut
    keeps the best: the returned list, together with the scored articles
    that were cut off, is a rearrangement of the fetched articles that
    clear [min_score]; every returned article is one of the fetched
    articles; and an article that was cut off scores no more than any
    returned one. *)
Theorem match_news_to_event_keeps_best
  (event : Event) (max_articles : Z) (min_score : Q)
  (articles : list Article) (total : Z) :
  fetch search_everything clock event = Return (articles, total) ->
  exists l cut,
    match_news_to_event search_everything clock event max_articles min_score
      = Return l /\
    Permutation (l ++ cut)
      (filter (clears min_score) (scored_fetch clock event articles)) /\
    incl (map article l) articles /\
    forall x y, In x l -> In y cut -> (score y <= score x)%Z.
Proof.
  intros Hf.
  rewrite (match_news_to_event_fetched _ _ _ max_articles min_score _ _ Hf).
  set (S := sort_desc (filter (clears min_score)
                         (scored_fetch clock event articles))).
  destruct (slice_to_firstn max_articles S) as [k Hk].
  exists (firstn k S), (skipn k S). rewrite Hk.
  split; [reflexivity|]. split; [|split].
  - rewrite firstn_skipn. apply sort_desc_perm.
  - intros x Hx. apply in_map_iff in Hx. destruct Hx as (s & <- & Hs).
    apply In_firstn in Hs.
    apply (Permutation_in _ (sort_desc_perm _)) in Hs.
    apply filter_In in Hs. destruct Hs as [Hs _].
    rewrite <- (score_all_article clock 1 articles event
                  (split (build_news_query event 8))).
    apply in_map, Hs.
  - apply StronglySorted_app_le. rewrite firstn_skipn.
    apply sort_desc_strongly.
Qed.

Lemma insert_desc_filter (p : ScoredArticle -> bool) x l :
  StronglySorted score_ge l ->
  filter p (insert_desc x l) =
  if p x then insert_desc x (filter p l) else filter p l.
Proof.
  induction l as [|y l IH]; intros H; simpl.
  - destruct (p x); reflexivity.
  - inversion H as [|? ? Hs Hf]; subst.
    destruct (score x <? score y)%Z eqn:E.
    + simpl. rewrite (IH Hs). destruct (p y) eqn:Ey, (p x) eqn:Ex;
        simpl; rewrite ?E; reflexivity.
    + simpl. destruct (p x) eqn:Ex; destruct (p y) eqn:Ey; simpl;
        rewrite ?E; try reflexivity.
      (* [x] passes, [y] does not: [x] goes before what is left of [l] *)
      assert (Hl : forall z, In z (filter p l) -> (score x <? score z)%Z = false).
      { intros z Hz. apply filter_In in Hz. destruct Hz as [Hz _].
        rewrite Forall_forall in Hf. specialize (Hf z Hz).
        unfold score_ge in Hf. apply Z.ltb_ge in E. apply Z.ltb_ge. lia. }
      destruct (filter p l) as [|z r]; [reflexivity|].
      simpl. rewrite (Hl z (or_introl eq_refl)). reflexivity.
Qed.

Lemma sort_desc_filter (p : ScoredArticle -> bool) l :
  filter p (sort_desc l) = sort_desc (filter p l).
Proof.
  induction l as [|x l IH]; simpl; [reflexivity|].
  rewrite insert_desc_filter by apply sort_desc_strongly.
  rewrite IH. destruct (p x); reflexivity.
Qed.

Lemma clears_mono (m1 m2 : Q) s :
  (m1 <= m2)%Q -> clears m2 s = true -> clears m1 s = true.
Proof.
  unfold clears. intros H H2. apply Qle_bool_iff in H2. apply Qle_bool_iff.
  apply (Qle_trans _ _ _ H H2).
Qed.

Lemma clears_down (m : Q) x y :
  (score y <= score x)%Z -> clears m y = true -> clears m x = true.
Proof.
  unfold clears. intros H Hy. apply Qle_bool_iff in Hy. apply Qle_bool_iff.
  apply (Qle_trans _ _ _ Hy). rewrite <- Zle_Qle. exact H.
Qed.

Lemma filter_none {A} (p : A -> bool) l :
  (forall x, In x l -> p x = false) -> filter p l = [].
Proof.
  induction l as [|x l IH]; intros H; simpl; [reflexivity|].
  rewrite (H x (or_introl eq_refl)). apply IH.
  intros y Hy. apply H. right; exact Hy.
Qed.

Lemma filter_clears_prefix (m : Q) l :
  StronglySorted score_ge l -> prefix_of (filter (clears m) l) l.
Proof.
  induction l as [|x l IH]; intros H; [exists []; reflexivity|].
  inversion H as [|? ? Hs Hf]; subst. simpl.
  destruct (clears m x) eqn:Ex.
  - destruct (IH Hs) as [rest E]. exists rest. simpl. rewrite <- E. reflexivity.
  - assert (En : filter (clears m) l = []).
    { apply filter_none. intros y Hy.
      destruct (clears m y) eqn:Ey; [|reflexivity].
      rewrite Forall_forall in Hf. specialize (Hf y Hy).
      rewrite (clears_down m x y Hf Ey) in Ex. discriminate. }
    rewrite En. exists (x :: l). reflexivity.
Qed.

Lemma filter_filter_imp {A} (p q : A -> bool) l :
  (forall x, q x = true -> p x = true) ->
  filter q (filter p l) = filter q l.
Proof.
  intros H. induction l as [|x l IH]; simpl; [reflexivity|].
  destruct (p x) eqn:Ep; simpl; destruct (q x) eqn:Eq; rewrite ?IH;
    try reflexivity.
  apply H in Eq. congruence.
Qed.

Lemma slice_to_prefix {A} (n : Z) (a b : list A) :
  prefix_of a b -> prefix_of (slice_to n a) (slice_to n b).
Proof.
  intros [rest ->]. unfold slice_to. destruct (0 <=? n)%Z.
  - rewrite firstn_app. eexists; reflexivity.
  - rewrite length_app.
    assert (Hk : length a - Z.to_nat (- n) <= length a) by lia.
    rewrite <- (firstn_skipn (length a - Z.to_nat (- n))
                  (firstn (length a + length rest - Z.to_nat (- n))
                     (a ++ rest))).
    rewrite firstn_firstn.
    replace (Nat.min (length a - Z.to_nat (- n))
               (length a + length rest - Z.to_nat (- n)))
      with (length a - Z.to_nat (- n)) by lia.
    rewrite firstn_app.
    replace (length a - Z.to_nat (- n) - length a) with 0 by lia.
    rewrite firstn_0, app_nil_r. eexists; reflexivity.
Qed.

(** X15.  Raising [min_score] only shortens the ranking from its end: what
    is returned for the higher floor is an initial segment of what is
    returned for the lower one. *)
Theorem match_news_to_event_floor_mono
  (event : Event) (max_articles : Z) (low high : Q)
  (articles : list Article) (total : Z) :
  fetch search_everything clock event = Return (articles, total) ->
  (low <= high)%Q ->
  exists l_low l_high,
    match_news_to_event search_everything clock event max_articles low
      = Return l_low /\
    match_news_to_event search_everything clock event max_articles high
      = Return l_high /\
    prefix_of l_high l_low.
Proof.
  intros Hf Hq.
  rewrite (match_news_to_event_fetched _ _ _ max_articles low _ _ Hf).
  rewrite (match_news_to_event_fetched _ _ _ max_articles high _ _ Hf).
  eexists; eexists. split; [reflexivity|]. split; [reflexivity|].
  apply slice_to_prefix.
  set (L := scored_fetch clock event articles).
  rewrite <- (filter_filter_imp (clears low) (clears high) L)
    by (intros s; apply clears_mono, Hq).
  rewrite <- sort_desc_filter.
  apply filter_clears_prefix, sort_desc_strongly.
Qed.

End RankingFacts.

Lemma match_news_to_event_length_witness :
  exists l,
    match_news_to_event elon_client at_noon elon_event 2 2 = Return l /\
    length l = 2.
Proof.
  destruct (match_news_to_event_length elon_client at_noon elon_event 2 2
              elon_articles 5 eq_refl ltac:(lia)) as (l & E & H).
  exists l. split; [exact E|]. rewrite H. vm_compute. reflexivity.
Defined.

Lemma match_news_to_event_keeps_best_witness :
  exists l cut,
    match_news_to_event elon_client at_noon elon_event 2 2 = Return l /\
    Permutation (l ++ cut)
      (filter (clears 2) (scored_fetch at_noon elon_event elon_articles)) /\
    incl (map article l) elon_articles /\
    forall x y, In x l -> In y cut -> (score y <= score x)%Z.
Proof.
  apply (match_news_to_event_keeps_best elon_client at_noon elon_event 2 2
           elon_articles 5).
  reflexivity.
Defined.

Lemma match_news_to_event_floor_mono_witness :
  exists l_low l_high,
    match_news_to_event elon_client at_noon elon_event 5 2 = Return l_low /\
    match_news_to_event elon_client at_noon elon_event 5 10 = Return l_high /\
    prefix_of l_high l_low.
Proof.
  apply (match_news_to_event_floor_mono elon_client at_noon elon_event 5 2 10
           elon_articles 5).
  - reflexivity.
  - vm_compute. discriminate.
Defined.

(** ** Market search *)

Lemma search_loop_closed (q : str) (limit : Z) (events acc : list Event) :
  search_loop q limit acc events =
  acc ++ firstn (Z.to_nat (Z.max 1 (limit - Z.of_nat (length acc))))
           (filter (fun e => contains (searchable e) q) events).
Proof.
  revert acc; induction events as [|e events IH]; intros acc; simpl.
  - rewrite firstn_nil, app_nil_r. reflexivity.
  - destruct (contains (searchable e) q) eqn:E; [|apply IH].
    rewrite length_app. simpl length.
    destruct (limit <=? Z.of_nat (length acc + 1))%Z eqn:L.
    + apply Z.leb_le in L.
      replace (Z.max 1 (limit - Z.of_nat (length acc)))%Z with 1%Z by lia.
      reflexivity.
    + apply Z.leb_gt in L. rewrite IH, length_app, <- app_assoc. simpl.
      replace (Z.to_nat (Z.max 1 (limit - Z.of_nat (length acc))))
        with (S (Z.to_nat (Z.max 1 (limit - Z.of_nat (length acc + 1)))))
        by lia.
      reflexivity.
Qed.

(** X16.  [search_events] returns the first [limit] fetched events whose
    title, description or tags contain the query, case being ignored, in
    the order in which they were fetched; a [limit] below one returns the
    first hit. *)
Theorem search_events_first_hits
  (get_events : Z -> Z -> bool -> bool -> str -> bool -> outcome (list Event))
  (query : str) (limit : Z) (active : bool) (events : list Event) :
  get_events 100%Z 0%Z active false (lit "volume") false = Return events ->
  search_events get_events query limit active =
  Return (firstn (Z.to_nat (Z.max 1 limit)) (filter (mentions query) events)).
Proof.
  intros H. unfold search_events. rewrite H, search_loop_closed. simpl.
  rewrite Z.sub_0_r. reflexivity.
Qed.

Lemma search_events_first_hits_witness :
  search_events market_client (lit "ELON") 2 true =
  Return [elon_event; mk_event "Oscars" ["Awards"%string; "Elon"%string]].
Proof.
  rewrite (search_events_first_hits market_client (lit "ELON") 2 true
             market_events eq_refl).
  vm_compute. reflexivity.
Defined.

(** ** The summary without the model *)

Lemma collect_key_points_ok (items : list news_item) (acc : list str) :
  Forall has_title items ->
  exists ks, collect_key_points acc items = Return (acc ++ ks) /\
             Forall2 key_point_of items ks.
Proof.
  revert acc; induction items as [|i items IH]; intros acc H;
    cbn [collect_key_points].
  - exists []. rewrite app_nil_r. split; [reflexivity | constructor].
  - inversion H as [|? ? Hi Hr]; subst. unfold key_point.
    unfold has_title in Hi.
    destruct (title (item_article i)) as [t|] eqn:Et; [|congruence].
    cbv beta iota.
    destruct (IH (acc ++ [lit "[" ++ format_opt (source_name (item_article i))
                            ++ lit "] " ++ firstn 80 t]) Hr)
      as (ks & E & F).
    eexists (_ :: ks). split.
    + etransitivity; [exact E|]. rewrite <- app_assoc. reflexivity.
    + constructor; [|exact F]. exists t. split; [exact Et | reflexivity].
Qed.

Lemma collect_key_points_raise (items : list news_item) (acc : list str) :
  (exists e, collect_key_points acc items = Raise e) <->
  Exists (fun i => title (item_article i) = None) items.
Proof.
  revert acc; induction items as [|i items IH]; intros acc;
    cbn [collect_key_points].
  - split; [intros [e H]; discriminate | intros H; inversion H].
  - unfold key_point.
    destruct (title (item_article i)) as [t|] eqn:Et; cbv beta iota.
    + rewrite IH. split; [intros H; right; exact H|].
      intros H. inversion H as [? ? Hn | ? ? Hr]; subst;
        [congruence | exact Hr].
    + split; [intros _; left; exact Et | intros _; eexists; reflexivity].
Qed.

(** X17.  When each of the first three articles has a title, the
    fallback summary is returned: it counts every article given as a
    source, is neutral with low confidence, and its key points are those
    of the first three articles, in their order, each made of the source
    between brackets and the first 80 characters of the title. *)
Theorem fallback_summary_returns (t : str) (articles : list news_item) :
  Forall has_title (firstn 3 articles) ->
  exists s,
    fallback_summary t articles = Return s /\
    event_title s = t /\
    canned (length articles) s /\
    Forall2 key_point_of (firstn 3 articles) (key_points s) /\
    length (key_points s) = Nat.min 3 (length articles).
Proof.
  intros H. unfold fallback_summary.
  destruct articles as [|a articles].
  - eexists; split; [reflexivity|]. unfold canned; simpl.
    repeat split; constructor.
  - destruct (collect_key_points_ok (firstn 3 (a :: articles)) [] H)
      as (ks & E & F).
    rewrite E. eexists; split; [reflexivity|]. unfold canned; simpl.
    repeat split; try exact F.
    apply Forall2_length in F. rewrite <- F. apply length_firstn.
Qed.

Lemma fallback_summary_returns_witness :
  exists s,
    fallback_summary (lit "Elon Musk buys Twitter") elon_items = Return s /\
    sources_used s = 5 /\
    map show (key_points s) =
      [ "[Reuters] Elon Musk buys Twitter"; "[A blog] Nothing of note";
        "[BBC News] Musk again" ]%string.
Proof.
  assert (H : Forall has_title (firstn 3 elon_items)).
  { repeat constructor; discriminate. }
  destruct (fallback_summary_returns (lit "Elon Musk buys Twitter")
              elon_items H) as (s & E & _ & (_ & _ & Hn) & _ & _).
  exists s. split; [exact E|]. split; [exact Hn|].
  vm_compute in E. injection E as <-. vm_compute. reflexivity.
Defined.

(** X18.  The fallback summary raises exactly when one of the first
    three articles has no title; an article after the third is not
    read. *)
Theorem fallback_summary_raises (t : str) (articles : list news_item) :
  (exists e, fallback_summary t articles = Raise e) <->
  Exists (fun i => title (item_article i) = None) (firstn 3 articles).
Proof.
  unfold fallback_summary. destruct articles as [|a articles].
  - split; [intros [e H]; discriminate | intros H; inversion H].
  - rewrite <- (collect_key_points_raise (firstn 3 (a :: articles)) []).
    destruct (collect_key_points [] (firstn 3 (a :: articles)));
      split; intros [x H]; try discriminate; eexists; reflexivity.
Qed.

Lemma fallback_summary_returns_aux (t : str) (articles : list news_item) :
  Forall has_title (firstn 3 articles) ->
  exists s,
    fallback_summary t articles = Return s /\
    canned (length articles) s.
Proof.
  intros H. unfold fallback_summary.
  destruct articles as [|a articles].
  - eexists; split; [reflexivity|]. repeat split.
  - destruct (collect_key_points_ok (firstn 3 (a :: articles)) [] H)
      as (ks & E & F).
    rewrite E. eexists; split; [reflexivity|]. repeat split.
Qed.

(** X19.  Whatever the model does short of raising outside [Exception],
    [summarize_event] returns a summary when each of the first three
    articles has a title: the summary of the model, or a neutral one of
    low confidence that counts every article given. *)
Theorem summarize_event_returns
  (api_key : str)
  (ai_summary : str -> str -> list news_item -> option Q
                -> outcome EventSummary)
  (t d : str) (articles : list news_item) (price : option Q) :
  Forall has_title (firstn 3 articles) ->
  (forall e, ai_summary t d articles price <> Raise (PyBaseException e)) ->
  exists s,
    summarize_event api_key ai_summary t d articles price = Return s /\
    (ai_summary t d articles price = Return s \/
     canned (length articles) s).
Proof.
  intros H Hb.
  destruct (fallback_summary_returns_aux t articles H) as (s & E & C).
  unfold summarize_event. destruct api_key as [|c k].
  - exists s. split; [exact E | right; exact C].
  - destruct articles as [|a articles].
    + eexists; split; [reflexivity|]. right. repeat split.
    + destruct (ai_summary t d (a :: articles) price) as [s'|[e|e]] eqn:Ea.
      * exists s'. split; [reflexivity | left; reflexivity].
      * exists s. split; [exact E | right; exact C].
      * exfalso. apply (Hb e). reflexivity.
Qed.

Lemma summarize_event_returns_witness :
  exists s,
    summarize_event (lit "sk-test") failing_model
      (lit "Elon Musk buys Twitter") [] elon_items None = Return s /\
    sources_used s = 5.
Proof.
  assert (H : Forall has_title (firstn 3 elon_items)).
  { repeat constructor; discriminate. }
  destruct (summarize_event_returns (lit "sk-test") failing_model
              (lit "Elon Musk buys Twitter") [] elon_items None H)
    as (s & E & [C | (_ & _ & C)]).
  - intros e. discriminate.
  - discriminate.
  - exists s. split; [exact E | exact C].
Defined.

(** ** The news route *)

Lemma clears_two (s : ScoredArticle) :
  clears 2 s = true -> (2 <= score s)%Z.
Proof.
  unfold clears. intros H. apply Qle_bool_iff in H.
  change 2%Q with (inject_Z 2) in H. rewrite <- Zle_Qle in H. exact H.
Qed.

Lemma Sorted_map_score (l : list ScoredArticle) :
  Sorted score_ge l -> Sorted Z.ge (map score l).
Proof.
  induction 1 as [|x l Hs IH Hh]; simpl; constructor; [exact IH|].
  destruct Hh as [|y l Hxy]; simpl; constructor.
  unfold score_ge in Hxy. lia.
Qed.

Section NewsRouteFacts.

Variable get_event_by_slug : str -> outcome (option Event).
Variable search_everything :
  str -> Z -> Z -> str -> Z -> outcome (list Article * Z).
Variable clock : nat -> Z.
Variable validation_error : ScoredArticle -> str.

Lemma article_responses_ok (ranked : list ScoredArticle)
  (body : list ArticleResponse) :
  article_responses validation_error ranked = Return body ->
  map relevance_score body = map score ranked /\
  map (fun r => Some (r_title r)) body
    = map (fun sa => title (article sa)) ranked /\
  map (fun r => Some (r_source_name r)) body
    = map (fun sa => source_name (article sa)) ranked.
Proof.
  revert body; induction ranked as [|sa ranked IH]; intros body;
    cbn [article_responses].
  - intros H; injection H as <-. repeat split.
  - unfold article_response.
    destruct (source_name (article sa)) as [s|] eqn:Es; [|discriminate].
    destruct (title (article sa)) as [t|] eqn:Et; [|discriminate].
    destruct (url (article sa)) as [u|] eqn:Eu; [|discriminate].
    cbn [bind].
    destruct (article_responses validation_error ranked) as [rs|e];
      [|discriminate].
    cbn [bind]. intros H; injection H as <-.
    destruct (IH rs eq_refl) as (A & B & C).
    cbn [map relevance_score r_title r_source_name].
    rewrite A, B, C, Es, Et. repeat split.
Qed.


Lemma ranked_floor_sorted (event : Event) (max_articles : Z)
  (ranked : list ScoredArticle) :
  match_news_to_event search_everything clock event max_articles 2
    = Return ranked ->
  (0 <= max_articles)%Z ->
  (Z.of_nat (length ranked) <= max_articles)%Z /\
  Sorted score_ge ranked /\
  Forall (fun s => (2 <= score s)%Z) ranked.
Proof.
  rewrite match_news_to_event_eq.
  destruct (get_time_window (clock 0) event 7 2) as [w|e0]; cbn [bind];
    [|discriminate].
  destruct (search search_everything event w) as [[articles total]|[e|e]];
    intros H Hm; try discriminate; injection H as <-.
  - set (S := sort_desc (filter (clears 2)
                           (scored_fetch clock event articles))).
    split; [|split].
    + unfold slice_to. destruct (0 <=? max_articles)%Z eqn:E;
        [|apply Z.leb_gt in E; lia].
      rewrite length_firstn. lia.
    + destruct (slice_to_firstn max_articles S) as [k ->].
      apply Sorted_firstn, sort_desc_sorted.
    + destruct (slice_to_firstn max_articles S) as [k ->].
      apply Forall_forall. intros x Hx. apply In_firstn in Hx.
      apply (Permutation_in _ (sort_desc_perm _)) in Hx.
      apply filter_In in Hx. apply clears_two, Hx.
  - split; [simpl; lia|]. split; constructor.
Qed.


(** X20.  When the News Client fails with an exception, the news of a
    known event is the empty list, with status 200, and not an error. *)
Theorem get_event_news_outage
  (event_slug : str) (max_articles : Z) (event : Event) (w : Z * Z)
  (e : str) :
  get_event_by_slug event_slug = Return (Some event) ->
  get_time_window (clock 0) event 7 2 = Return w ->
  search search_everything event w = Raise (PyException e) ->
  get_event_news get_event_by_slug search_everything clock validation_error
    event_slug max_articles = Ok [].
Proof.
  intros Hs Hw Hf. unfold get_event_news. rewrite Hs. cbn [bind].
  rewrite (match_news_to_event_searched _ _ _ _ _ w e Hw Hf). reflexivity.
Qed.

(** X21.  A body returned by the news route lists the ranking of the
    event, title by title: at most [max_articles] entries, relevance
    scores from the highest to the lowest, none below 2. *)
Theorem get_event_news_body
  (event_slug : str) (max_articles : Z) (body : list ArticleResponse) :
  get_event_news get_event_by_slug search_everything clock validation_error
    event_slug max_articles = Ok body ->
  (0 <= max_articles)%Z ->
  exists event ranked,
    get_event_by_slug event_slug = Return (Some event) /\
    match_news_to_event search_everything clock event max_articles 2
      = Return ranked /\
    map (fun r => Some (r_title r)) body
      = map (fun sa => title (article sa)) ranked /\
    map relevance_score body = map score ranked /\
    (Z.of_nat (length body) <= max_articles)%Z /\
    Sorted Z.ge (map relevance_score body) /\
    Forall (fun r => (2 <= relevance_score r)%Z) body.
Proof.
  unfold get_event_news. intros H Hm.
  destruct (get_event_by_slug event_slug) as [[event|]|[e|e]];
    cbn [bind] in H; try discriminate.
  destruct (match_news_to_event search_everything clock event
              max_articles 2) as [ranked|[e|e]] eqn:Er;
    cbn [bind] in H; try discriminate.
  destruct (article_responses validation_error ranked) as [b|[e|e]] eqn:Eb;
    cbn [bind] in H; try discriminate.
  injection H as <-.
  destruct (article_responses_ok ranked b Eb) as (A & B & _).
  destruct (ranked_floor_sorted event max_articles ranked Er Hm)
    as (L & S & F).
  exists event, ranked. repeat split; try assumption.
  - rewrite <- (length_map relevance_score), A, length_map. exact L.
  - rewrite A. apply Sorted_map_score, S.
  - apply Forall_forall. intros r Hr.
    apply (in_map relevance_score) in Hr. rewrite A in Hr.
    apply in_map_iff in Hr. destruct Hr as (sa & <- & Hsa).
    rewrite Forall_forall in F. apply F, Hsa.
Qed.


End NewsRouteFacts.

Lemma get_event_news_outage_witness :
  get_event_news slug_client down_client at_noon validation_text
    (lit "elon-musk-buys-twitter") 10 = Ok [].
Proof.
  apply (get_event_news_outage slug_client down_client at_noon
           validation_text (lit "elon-musk-buys-twitter") 10 elon_event
           ((noon - days 7)%Z, noon) (lit "News API error: rateLimited"));
    vm_compute; reflexivity.
Defined.

Lemma get_event_news_body_witness :
  (Z.of_nat (length elon_body) <= 3)%Z /\
  Sorted Z.ge (map relevance_score elon_body) /\
  Forall (fun r => (2 <= relevance_score r)%Z) elon_body.
Proof.
  destruct (get_event_news_body slug_client elon_client at_noon
              validation_text (lit "elon-musk-buys-twitter") 3 elon_body
              ltac:(vm_compute; reflexivity) ltac:(lia))
    as (event & ranked & _ & _ & _ & _ & L & S & F).
  repeat split; assumption.
Defined.

